(** * The scan-and-patch engine of clip_patcher_gui.py

    A shallow embedding of [find_wildcard_matches], [find_exact_matches]
    and [patch_file], together with the pieces of the Python library they
    call: [fnmatch.translate] and [re.compile]/[match] (as in CPython 3.9
    to 3.12), [bytes.find], [str.lower]/[str.upper], [str.encode],
    [bytes.decode] and the slice assignment of [mmap].

    - a [bytes] object is a list of [byte];
    - a [str] (pattern, placeholder, text of a run) is a list of
      characters with code points 0..255; those below 128 are the ASCII
      characters; the mode, which is only compared with two constants, is
      a [string];
    - offsets are natural numbers, and "not found" ([-1]) is [None];
    - a raised exception is a value of [pyerror]; functions that can
      raise return a [result];
    - the file is the list of its bytes; [patch_file] returns the
      contents of the file after the call next to its result;
    - the order in which a Python [set] is iterated is a parameter. *)

From Stdlib Require Import Ascii String.
From Stdlib.Strings Require Import Byte.
From Stdlib Require Import List Arith Lia Bool NArith.
From Stdlib Require Import Permutation Sorted.
From Equations Require Import Equations.
From Equations.Prop Require Import Logic.
Import ListNotations.

Set Implicit Arguments.

Local Open Scope nat_scope.

(* ================================================================== *)
(** ** Python values *)
(* ================================================================== *)

Definition bytes := list byte.
Definition str := list ascii.

Definition ord (c : ascii) : N := N_of_ascii c.

(** [chr(byte)] for a byte of a [bytes] object. *)
Definition chr (b : byte) : ascii := ascii_of_byte b.

Definition str_of (s : string) : str := list_ascii_of_string s.
Definition bytes_of (s : string) : bytes := map byte_of_ascii (str_of s).

Definition in_rng (lo hi : N) (c : ascii) : bool :=
  ((lo <=? ord c) && (ord c <=? hi))%N.

Definition is_ascii (c : ascii) : bool := (ord c <? 128)%N.

(** [s.encode("ascii", errors="ignore")]: non-ASCII characters are dropped. *)
Definition encode_ignore (s : str) : bytes :=
  map byte_of_ascii (filter is_ascii s).

(** [s.encode("ascii")]: raises UnicodeEncodeError on a non-ASCII character
    ([None] here). *)
Definition encode_strict (s : str) : option bytes :=
  if forallb is_ascii s then Some (map byte_of_ascii s) else None.

(** [b.decode("ascii", errors="ignore")]: bytes above 127 are dropped. *)
Definition decode_ignore (b : bytes) : str :=
  filter is_ascii (map chr b).

(** [str.lower] on one character.  Exact on code points 0..255: the
    letters A-Z and the Latin-1 capitals (all of 0xC0..0xDE but the
    multiplication sign 0xD7) move up by 32. *)
Definition lower_char (c : ascii) : ascii :=
  if in_rng 65 90 c || (in_rng 192 222 c && negb (ord c =? 215)%N)
  then ascii_of_N (ord c + 32) else c.

(** [str.upper] on one character.  a-z and the Latin-1 small letters
    (0xE0..0xFE but the division sign 0xF7) move down by 32; the sharp s
    0xDF becomes the two letters SS.  The micro sign 0xB5 and y-diaeresis
    0xFF have their capitals at U+039C and U+0178, outside this model's
    code points; they are kept as they are, which their only consumer,
    [encode_ignore], cannot tell apart from the real result: it drops
    either one. *)
Definition upper_chars (c : ascii) : str :=
  if in_rng 97 122 c || (in_rng 224 254 c && negb (ord c =? 247)%N)
  then [ascii_of_N (ord c - 32)]
  else if (ord c =? 223)%N then ["S"; "S"]%char
  else [c].

Definition str_lower (s : str) : str := map lower_char s.
Definition str_upper (s : str) : str := flat_map upper_chars s.

Definition ascii_eqb (a b : ascii) : bool := Ascii.eqb a b.

Definition bytes_eq_dec : forall x y : bytes, {x = y} + {x <> y} :=
  list_eq_dec Byte.byte_eq_dec.

(** The exceptions the engine can raise. *)
Inductive pyerror : Type :=
| ValueError_unknown_mode (mode : string)  (* raise ValueError(f"Unknown mode: ...") *)
| ValueError_mmap_empty                    (* mmap.mmap on a file of length 0 *)
| ZeroDivisionError                        (* len(matched_bytes) // 0 *)
| IndexError_mmap_size                     (* mmap slice assignment is wrong size *)
| UnicodeEncodeError.                      (* str.encode("ascii") *)

Inductive result (A : Type) : Type :=
| Ok (a : A)
| Raise (e : pyerror).
Arguments Ok {A} a.
Arguments Raise {A} e.

Definition bind {A B} (r : result A) (k : A -> result B) : result B :=
  match r with Ok a => k a | Raise e => Raise e end.

Notation "x <- r ;; k" := (bind r (fun x => k))
  (at level 61, r at next level, right associativity).

(* ================================================================== *)
(** ** The ASCII-run scan of [find_wildcard_matches] (lines 53-68) *)
(* ================================================================== *)

(** [32 <= byte <= 126] *)
Definition printable (b : byte) : bool :=
  ((32 <=? Byte.to_N b) && (Byte.to_N b <=? 126))%N.

(** The three variables the scanning loop updates. *)
Record scan_state : Type := mk_scan {
  ascii_strings : list (nat * str);
  current_string : str;
  current_start : nat
}.

Definition is_empty {A} (l : list A) : bool :=
  match l with [] => true | _ => false end.

(** One iteration of [for i, byte in enumerate(data)]. *)
Definition scan_step (st : scan_state) (i : nat) (b : byte) : scan_state :=
  if printable b then
    mk_scan (ascii_strings st)
            (current_string st ++ [chr b])
            (if is_empty (current_string st) then i else current_start st)
  else if is_empty (current_string st) then st
  else mk_scan (ascii_strings st ++ [(current_start st, current_string st)])
               [] (current_start st).

Fixpoint scan_loop (st : scan_state) (i : nat) (data : bytes) : scan_state :=
  match data with
  | [] => st
  | b :: rest => scan_loop (scan_step st i b) (S i) rest
  end.

(** The scan with the flush after the loop: the list [ascii_strings]. *)
Definition extract_runs (data : bytes) : list (nat * str) :=
  let st := scan_loop (mk_scan [] [] 0) 0 data in
  if is_empty (current_string st) then ascii_strings st
  else ascii_strings st ++ [(current_start st, current_string st)].

(* ================================================================== *)
(** ** [fnmatch.translate] (CPython 3.9 to 3.12) *)
(* ================================================================== *)

(** The pieces [translate] appends to [res].  A literal character [c] is
    appended as [re.escape(c)], which the regular-expression compiler
    reads back as the character [c] itself. *)
Inductive piece : Type :=
| PStar                 (* STAR *)
| PDot                  (* '.' *)
| PNever                (* '(?!)' *)
| PLit (c : ascii)      (* re.escape(c) *)
| PSet (body : str).    (* '[' + stuff + ']' *)

Fixpoint index_of (c : ascii) (l : str) : option nat :=
  match l with
  | [] => None
  | x :: t => if ascii_eqb x c then Some 0 else option_map S (index_of c t)
  end.

(** The scan for the closing bracket; [rest] is the pattern after the
    opening bracket and the result is [j - i], [None] when [j >= n]. *)
Definition closing_index (rest : str) : option nat :=
  let j := match rest with
           | c :: _ => if ascii_eqb c "!" then 1 else 0
           | [] => 0
           end in
  let j := match nth_error rest j with
           | Some c => if ascii_eqb c "]" then S j else j
           | None => j
           end in
  option_map (fun d => j + d) (index_of "]" (skipn j rest)).

(** The [while True] loop that cuts [stuff] at the hyphens that make
    ranges: [skip] characters of the current chunk are passed over before
    a hyphen is looked for ([k = i+1], [k = i+2] after a leading '!', and
    [k = k+3] after each hyphen found).  Returns the chunks appended in the
    loop and the last [chunk = pat[i:j]]. *)
Fixpoint split_chunks (skip : nat) (cur : str) (stuff : str) : list str * str :=
  match stuff with
  | [] => ([], cur)
  | c :: rest =>
      match skip with
      | 0 => if ascii_eqb c "-"
             then let (chunks, chunk) := split_chunks 2 [] rest in
                  (cur :: chunks, chunk)
             else split_chunks 0 (cur ++ [c]) rest
      | S n => split_chunks n (cur ++ [c]) rest
      end
  end.

(** [if chunk: chunks.append(chunk) else: chunks[-1] += '-'] *)
Definition close_chunks (chunks : list str) (chunk : str) : list str :=
  if is_empty chunk
  then match rev chunks with
       | prev :: before => rev before ++ [prev ++ ["-"%char]]
       | [] => chunks
       end
  else chunks ++ [chunk].

(** [for k in range(len(chunks)-1, 0, -1)]: a range whose ends are in the
    wrong order is removed together with its two ends. *)
Fixpoint remove_empty_ranges (chunks : list str) : list str :=
  match chunks with
  | [] => []
  | c :: rest =>
      match remove_empty_ranges rest with
      | [] => [c]
      | d :: tl =>
          match rev c, d with
          | x :: _, y :: d' =>
              if (ord y <? ord x)%N then (removelast c ++ d') :: tl
              else c :: d :: tl
          | _, _ => c :: d :: tl
          end
      end
  end.

Definition escape_char (special : ascii -> bool) (s : str) : str :=
  flat_map (fun c => if special c then ["\"%char; c] else [c]) s.

Definition escape_backslash : str -> str :=
  escape_char (fun c => ascii_eqb c "\").
Definition escape_hyphen : str -> str :=
  escape_char (fun c => ascii_eqb c "-").
(** [re.sub(r'([&~|])', r'\\\1', stuff)] *)
Definition escape_setops : str -> str :=
  escape_char (fun c => ascii_eqb c "&" || ascii_eqb c "~" || ascii_eqb c "|").

(** ['-'.join(chunks)] *)
Fixpoint join_hyphen (chunks : list str) : str :=
  match chunks with
  | [] => []
  | [c] => c
  | c :: rest => c ++ "-"%char :: join_hyphen rest
  end.

(** The text put between the brackets, from [stuff = pat[i:j]]. *)
Definition set_stuff (stuff : str) : str :=
  let stuff :=
    if existsb (fun c => ascii_eqb c "-") stuff then
      let skip := match stuff with
                  | c :: _ => if ascii_eqb c "!" then 2 else 1
                  | [] => 1
                  end in
      let (chunks, chunk) := split_chunks skip [] stuff in
      let chunks := remove_empty_ranges (close_chunks chunks chunk) in
      join_hyphen (map (fun s => escape_hyphen (escape_backslash s)) chunks)
    else escape_backslash stuff in
  escape_setops stuff.

Definition set_piece (stuff : str) : piece :=
  match stuff with
  | [] => PNever
  | c :: t =>
      if ascii_eqb c "!" then (if is_empty t then PDot else PSet ("^"%char :: t))
      else if ascii_eqb c "^" || ascii_eqb c "[" then PSet ("\"%char :: stuff)
      else PSet stuff
  end.

(** [if (not res) or res[-1] is not STAR: add(STAR)] *)
Definition add_star (res : list piece) : list piece :=
  match rev res with
  | PStar :: _ => res
  | _ => res ++ [PStar]
  end.

(** The first [while i < n] loop of [translate]. *)
Equations? translate_loop (pat : str) (res : list piece) : list piece
  by wf (length pat) lt :=
  translate_loop [] res := res;
  translate_loop (c :: rest) res :=
    if ascii_eqb c "*" then translate_loop rest (add_star res)
    else if ascii_eqb c "?" then translate_loop rest (res ++ [PDot])
    else if ascii_eqb c "[" then
      match closing_index rest with
      | None => translate_loop rest (res ++ [PLit "["])
      | Some j =>
          translate_loop (skipn (S j) rest)
                         (res ++ [set_piece (set_stuff (firstn j rest))])
      end
    else translate_loop rest (res ++ [PLit c]).
Proof.
  all: try (simpl; lia).
  pose proof (length_skipn (S j) rest). simpl in *. lia.
Qed.

(** [fnmatch.translate(pat)].  The second loop of [translate] only writes
    the pieces out: a STAR becomes [.*] (an interior one inside an atomic
    group with a lazy star, which accepts the same strings without
    backtracking), and the whole is wrapped as [(?s:...)\Z]. *)
Definition translate (pat : str) : list piece := translate_loop pat [].

(* ================================================================== *)
(** ** [re.compile] and [match] on the output of [translate] *)
(* ================================================================== *)

Inductive set_item : Type :=
| SChar (c : ascii)
| SRange (lo hi : ascii).

Inductive rx : Type :=
| RStar                                   (* .* under (?s) *)
| RAny                                    (* .  under (?s) *)
| RNever                                  (* (?!) *)
| RLit (c : ascii)
| RSet (negate : bool) (items : list set_item).

(** A character of a set body, escaped with a backslash or not. *)
Inductive set_tok : Type :=
| Raw (c : ascii)
| Esc (c : ascii).

Definition tok_char (t : set_tok) : ascii :=
  match t with Raw c => c | Esc c => c end.

Definition is_alnum (c : ascii) : bool :=
  in_rng 48 57 c || in_rng 65 90 c || in_rng 97 122 c.

(** Reading the escapes of a set body.  A backslash before a letter or a
    digit (a character category or an error in [re]) and a lone final
    backslash are answered with [None]; [translate] emits neither, since
    it doubles every backslash of the pattern. *)
Fixpoint set_tokens (body : str) : option (list set_tok) :=
  match body with
  | [] => Some []
  | c :: rest =>
      if ascii_eqb c "\" then
        match rest with
        | [] => None
        | e :: rest' =>
            if is_alnum e then None
            else option_map (cons (Esc e)) (set_tokens rest')
        end
      else option_map (cons (Raw c)) (set_tokens rest)
  end.

Definition is_raw (c : ascii) (t : set_tok) : bool :=
  match t with Raw x => ascii_eqb x c | Esc _ => false end.

(** The members of a set: single characters and ranges [lo-hi]; a range
    with [hi < lo] is the error "bad character range"; a hyphen that is
    the last character of the set is a member. *)
Fixpoint set_items (toks : list set_tok) : option (list set_item) :=
  match toks with
  | [] => Some []
  | t :: rest =>
      match rest with
      | h :: rest2 =>
          if is_raw "-" h then
            match rest2 with
            | [] => Some [SChar (tok_char t); SChar "-"]
            | t2 :: rest3 =>
                if (ord (tok_char t2) <? ord (tok_char t))%N then None
                else option_map (cons (SRange (tok_char t) (tok_char t2)))
                                (set_items rest3)
            end
          else option_map (cons (SChar (tok_char t))) (set_items rest)
      | [] => Some [SChar (tok_char t)]
      end
  end.

Definition compile_set (body : str) : option rx :=
  match set_tokens body with
  | None => None
  | Some toks =>
      let (negate, toks) :=
        match toks with
        | t :: toks' => if is_raw "^" t then (true, toks') else (false, toks)
        | [] => (false, toks)
        end in
      option_map (RSet negate) (set_items toks)
  end.

Definition compile_piece (p : piece) : option rx :=
  match p with
  | PStar => Some RStar
  | PDot => Some RAny
  | PNever => Some RNever
  | PLit c => Some (RLit c)
  | PSet body => compile_set body
  end.

(** [re.compile(regex_pattern, flags)]; [None] stands for [re.error]. *)
Fixpoint re_compile (ps : list piece) : option (list rx) :=
  match ps with
  | [] => Some []
  | p :: rest =>
      match compile_piece p, re_compile rest with
      | Some r, Some rs => Some (r :: rs)
      | _, _ => None
      end
  end.

Definition chars_between (lo hi : ascii) : list ascii :=
  map ascii_of_nat (seq (nat_of_ascii lo) (S (nat_of_ascii hi) - nat_of_ascii lo)).

(** Under [re.IGNORECASE] a character is lower-cased and looked up among
    the lower-cased members. *)
Definition item_match (ci : bool) (it : set_item) (ch : ascii) : bool :=
  match it with
  | SChar x =>
      if ci then ascii_eqb (lower_char x) (lower_char ch) else ascii_eqb x ch
  | SRange lo hi =>
      if ci
      then existsb (fun x => ascii_eqb (lower_char x) (lower_char ch))
                   (chars_between lo hi)
      else in_rng (ord lo) (ord hi) ch
  end.

Definition atom_match (ci : bool) (a : rx) (ch : ascii) : bool :=
  match a with
  | RStar => false
  | RAny => true
  | RNever => false
  | RLit p =>
      if ci then ascii_eqb (lower_char p) (lower_char ch) else ascii_eqb p ch
  | RSet negate items => xorb negate (existsb (fun it => item_match ci it ch) items)
  end.

(** [pattern_regex.match(s)]: the expression is tried at position 0 of
    [s], and its final [\Z] holds at the end of [s] only. *)
Fixpoint rx_match (ci : bool) (r : list rx) (s : str) : bool :=
  match r with
  | [] => is_empty s
  | RStar :: r' =>
      (fix star (s : str) : bool :=
         rx_match ci r' s || match s with [] => false | _ :: t => star t end) s
  | a :: r' =>
      match s with
      | [] => false
      | ch :: t => atom_match ci a ch && rx_match ci r' t
      end
  end.

(* ================================================================== *)
(** ** [find_wildcard_matches] *)
(* ================================================================== *)

(** A tuple [(start_pos, ascii_str, matched_bytes)]. *)
Definition hit : Type := nat * str * bytes.

Definition hit_offset (h : hit) : nat := fst (fst h).
Definition hit_text (h : hit) : str := snd (fst h).
Definition hit_bytes (h : hit) : bytes := snd h.

(** [for start_pos, ascii_str in ascii_strings] (lines 71-74). *)
Fixpoint match_runs (pattern_regex : list rx) (ci : bool)
         (runs : list (nat * str)) (matches : list hit) : result (list hit) :=
  match runs with
  | [] => Ok matches
  | (start_pos, ascii_str) :: rest =>
      if rx_match ci pattern_regex ascii_str then
        match encode_strict ascii_str with
        | Some matched_bytes =>
            match_runs pattern_regex ci rest
                       (matches ++ [(start_pos, ascii_str, matched_bytes)])
        | None => Raise UnicodeEncodeError
        end
      else match_runs pattern_regex ci rest matches
  end.

Definition find_wildcard_matches (data : bytes) (pattern : str)
           (case_insensitive : bool) : result (list hit) :=
  let regex_pattern := translate pattern in
  let ascii_strings := extract_runs data in
  match re_compile regex_pattern with
  | None => Ok []                      (* except re.error: return [] *)
  | Some pattern_regex =>
      match_runs pattern_regex case_insensitive ascii_strings []
  end.

(* ================================================================== *)
(** ** [find_exact_matches] *)
(* ================================================================== *)

Fixpoint starts_with (sub data : bytes) : bool :=
  match sub, data with
  | [], _ => true
  | x :: sub', y :: data' => Byte.eqb x y && starts_with sub' data'
  | _ :: _, [] => false
  end.

(** The lowest position of [sub] in [data], counted from [pos]. *)
Fixpoint find_at (sub data : bytes) (pos : nat) {struct data} : option nat :=
  if starts_with sub data then Some pos
  else match data with
       | [] => None
       | _ :: rest => find_at sub rest (S pos)
       end.

(** [data.find(sub, start)]: the lowest index at or after [start] where
    [sub] occurs in [data]; the empty [sub] occurs at every index up to
    and including [len(data)]. *)
Definition bytes_find (data sub : bytes) (start : nat) : option nat :=
  if start <=? length data then find_at sub (skipn start data) start
  else None.

(** The loop [start = 0; while True: idx = data.find(candidate, start) ...
    start = idx + 1]: the offsets it appends, in order. *)
Equations? find_all (data candidate : bytes) (start : nat) : list nat
  by wf (S (length data) - start) lt :=
  find_all data candidate start with inspect (bytes_find data candidate start) := {
    | exist _ (Some idx) _ => idx :: find_all data candidate (idx + 1);
    | exist _ None _ => [] }.
Proof.
  unfold bytes_find in e.
  destruct (start <=? length data) eqn:E; [|discriminate].
  apply Nat.leb_le in E.
  assert (B : forall d pos i, find_at candidate d pos = Some i ->
                              pos <= i <= pos + length d).
  { induction d as [|b d IH]; intros pos i; simpl.
    - destruct (starts_with candidate []); [|discriminate].
      intros [= <-]. lia.
    - destruct (starts_with candidate (b :: d)).
      + intros [= <-]. lia.
      + intros H. apply IH in H. lia. }
  apply B in e. rewrite length_skipn in e.
  rewrite Nat.add_1_r. destruct start; lia.
Qed.

Section Engine.

(** [for candidate in set(candidates)]: a Python set has no duplicates
    and its iteration order is not specified (the hash of a [bytes]
    object changes from one process to the next), so the order is a
    parameter of the model. *)
Variable set_iter : list bytes -> list bytes.

Definition find_exact_matches (data : bytes) (pattern : str)
           (case_insensitive : bool) : list hit :=
  let pattern_bytes := encode_ignore pattern in
  if case_insensitive then
    let pattern_lower := str_lower pattern in
    let pattern_upper := str_upper pattern in
    let candidates := [pattern_bytes;
                       encode_ignore pattern_lower;
                       encode_ignore pattern_upper] in
    flat_map (fun candidate =>
                map (fun idx => (idx, decode_ignore candidate, candidate))
                    (find_all data candidate 0))
             (set_iter candidates)
  else
    map (fun idx => (idx, pattern, pattern_bytes))
        (find_all data pattern_bytes 0).

(* ================================================================== *)
(** ** [patch_file] *)
(* ================================================================== *)

(** A tuple [(m[0], m[1], m[2], pattern)] of [all_matches]. *)
Definition entry : Type := nat * str * bytes * str.

Definition entry_offset (e : entry) : nat := fst (fst (fst e)).
Definition entry_bytes (e : entry) : bytes := snd (fst e).

Definition with_pattern (pattern : str) (m : hit) : entry :=
  (hit_offset m, hit_text m, hit_bytes m, pattern).

(** ["*" in pattern or "?" in pattern] *)
Definition is_wildcard (pattern : str) : bool :=
  existsb (fun c => ascii_eqb c "*") pattern
  || existsb (fun c => ascii_eqb c "?") pattern.

(** Lines 131-134: the search chosen for one pattern. *)
Definition pattern_matches (data : bytes) (pattern : str)
           (case_insensitive : bool) : result (list hit) :=
  if is_wildcard pattern
  then find_wildcard_matches data pattern case_insensitive
  else Ok (find_exact_matches data pattern case_insensitive).

(** [for pattern in patterns] (lines 130-136). *)
Fixpoint collect_matches (data : bytes) (patterns : list str)
         (case_insensitive : bool) (all_matches : list entry)
  : result (list entry) :=
  match patterns with
  | [] => Ok all_matches
  | pattern :: rest =>
      matches <- pattern_matches data pattern case_insensitive ;;
      collect_matches data rest case_insensitive
                      (all_matches ++ map (with_pattern pattern) matches)
  end.

(** [all_matches.sort(key=lambda x: x[0], reverse=True)]: descending
    offsets; the sort is stable, entries with equal offsets keep their
    order. *)
Fixpoint insert_desc (x : entry) (l : list entry) : list entry :=
  match l with
  | [] => [x]
  | y :: t =>
      if entry_offset x <? entry_offset y then y :: insert_desc x t
      else x :: y :: t
  end.

Definition sort_desc (l : list entry) : list entry :=
  fold_right insert_desc [] l.

(** [mm[start:stop] = repl]: the slice bounds are clipped to the length
    of the map, and a replacement of another length than the slice is
    refused with IndexError. *)
Definition mmap_setslice (mm : bytes) (start stop : nat) (repl : bytes)
  : result bytes :=
  let start := Nat.min start (length mm) in
  let stop := Nat.min stop (length mm) in
  let slicelen := stop - start in
  if length repl =? slicelen
  then Ok (firstn start mm ++ repl ++ skipn (start + slicelen) mm)
  else Raise IndexError_mmap_size.

(** [placeholder * k] *)
Definition str_repeat (s : str) (k : nat) : str := concat (repeat s k).

(** Lines 145-156: the replacement bytes of one match. *)
Definition make_repl (mode : string) (placeholder : str)
           (matched_bytes : bytes) : result bytes :=
  let n := length matched_bytes in
  if String.eqb mode "null" then Ok (repeat x00 n)
  else if String.eqb mode "placeholder" then
    if length placeholder =? 0 then Raise ZeroDivisionError
    else
      let ph := firstn n (str_repeat placeholder (n / length placeholder + 1)) in
      let repl := encode_ignore ph in
      let repl := if length repl <? n
                  then repl ++ repeat x00 (n - length repl)
                  else repl in
      Ok (firstn n repl)
  else Raise (ValueError_unknown_mode mode).

(** What a log line is made from: the matched text, the pattern and the
    offset (the formatting of the line is not modelled). *)
Record log_entry : Type := mk_log {
  log_matched : str;
  log_pattern : str;
  log_offset : nat
}.

Record patch_state : Type := mk_patch {
  mm : bytes;
  total_patches : nat;
  log_entries : list log_entry
}.

(** [for start_idx, matched_str, matched_bytes, original_pattern in
    all_matches] (lines 144-162).  An exception stops the loop; the map
    keeps what was written before it. *)
Fixpoint patch_loop (mode : string) (placeholder : str)
         (all_matches : list entry) (st : patch_state)
  : patch_state * option pyerror :=
  match all_matches with
  | [] => (st, None)
  | (start_idx, matched_str, matched_bytes, original_pattern) :: rest =>
      match make_repl mode placeholder matched_bytes with
      | Raise e => (st, Some e)
      | Ok repl =>
          match mmap_setslice (mm st) start_idx
                              (start_idx + length matched_bytes) repl with
          | Raise e => (st, Some e)
          | Ok mm' =>
              patch_loop mode placeholder rest
                (mk_patch mm' (total_patches st + 1)
                          (log_entries st
                           ++ [mk_log matched_str original_pattern start_idx]))
          end
      end
  end.

(** [patch_file] on a file whose contents are [file]; the result is the
    contents of the file afterwards together with the returned pair or
    the exception.  The map is shared with the file, so the file holds
    whatever the loop wrote.  The backup copy made first goes to another
    file and is left out. *)
Definition patch_file (file : bytes) (patterns : list str) (mode : string)
           (placeholder : str) (case_insensitive : bool)
  : bytes * result (nat * list log_entry) :=
  let data := file in
  match collect_matches data patterns case_insensitive [] with
  | Raise e => (file, Raise e)
  | Ok all_matches =>
      let all_matches := sort_desc all_matches in
      if is_empty all_matches then (file, Ok (0, []))
      else if is_empty file then (file, Raise ValueError_mmap_empty)
      else
        let (st, err) :=
          patch_loop mode placeholder all_matches (mk_patch file 0 []) in
        match err with
        | Some e => (mm st, Raise e)
        | None => (mm st, Ok (total_patches st, log_entries st))
        end
  end.

End Engine.

(** Every admissible iteration order lists the members of the set once. *)
Definition set_order (set_iter : list bytes -> list bytes) : Prop :=
  forall l, Permutation (set_iter l) (nodup bytes_eq_dec l).

(** One such order, used to run the engine on examples. *)
Definition sample_order (l : list bytes) : list bytes := nodup bytes_eq_dec l.

(* ================================================================== *)
(** ** Vocabulary of the properties *)
(* ================================================================== *)

(** The offsets an entry covers: [offset, offset + len(matched_bytes)). *)
Definition covers (e : entry) (i : nat) : Prop :=
  entry_offset e <= i < entry_offset e + length (entry_bytes e).

(** [sub] occurs in [data] at offset [i]. *)
Definition occurs_at (data sub : bytes) (i : nat) : Prop :=
  exists pre post, data = pre ++ sub ++ post /\ length pre = i.

(** The test the search makes at offset [i]. *)
Definition occurs_atb (data sub : bytes) (i : nat) : bool :=
  (i <=? length data) && starts_with sub (skipn i data).

(** The hits of one candidate. *)
Definition candidate_hits (data candidate : bytes) : list hit :=
  map (fun idx => (idx, decode_ignore candidate, candidate))
      (find_all data candidate 0).

(** The three byte strings searched for. *)
Definition case_variants (pattern : str) : list bytes :=
  [encode_ignore pattern;
   encode_ignore (str_lower pattern);
   encode_ignore (str_upper pattern)].


(** The list of runs once the run in progress is closed. *)
Definition flush (st : scan_state) : list (nat * str) :=
  if is_empty (current_string st) then ascii_strings st
  else ascii_strings st ++ [(current_start st, current_string st)].



(** No opening bracket of the pattern finds its closing bracket. *)
Fixpoint brackets_open (pat : str) : bool :=
  match pat with
  | [] => true
  | c :: rest =>
      (if ascii_eqb c "[" then
         match closing_index rest with None => true | Some _ => false end
       else true)
      && brackets_open rest
  end.

Definition has_char (c : ascii) (s : str) : bool :=
  existsb (fun x => ascii_eqb x c) s.




Definition is_star (p : piece) : bool :=
  match p with PStar => true | _ => false end.



(** The run that is pending when the scan is at offset [pos] with the
    characters [cur] collected. *)
Definition pending (pos : nat) (cur : str) : list (nat * str) :=
  if is_empty cur then [] else [(pos - length cur, cur)].

(** The runs the scan still appends from offset [pos] on, [cur] being
    the characters of the run in progress. *)
Fixpoint runs_from (pos : nat) (cur : str) (data : bytes) : list (nat * str) :=
  match data with
  | [] => pending pos cur
  | b :: rest =>
      if printable b then runs_from (S pos) (cur ++ [chr b]) rest
      else pending pos cur ++ runs_from (S pos) [] rest
  end.

(** The match made from a run. *)
Definition hit_of_run (run : nat * str) : hit :=
  (fst run, snd run, map byte_of_ascii (snd run)).

(** The text satisfies the wildcard pattern. *)
Definition satisfies (pattern : str) (ci : bool) (text : str) : bool :=
  match re_compile (translate pattern) with
  | Some pattern_regex => rx_match ci pattern_regex text
  | None => false
  end.

(** [r] is a maximal run of printable bytes of [data], at offset [start]. *)
Definition is_run (data : bytes) (start : nat) (r : bytes) : Prop :=
  r <> [] /\ forallb printable r = true
  /\ exists pre post,
      data = pre ++ r ++ post /\ length pre = start
      /\ (pre = [] \/ exists pre' b, pre = pre' ++ [b] /\ printable b = false)
      /\ (post = [] \/ exists b post', post = b :: post' /\ printable b = false).

(** The byte strings a literal pattern is searched as. *)
Definition searched (pattern : str) (ci : bool) : list bytes :=
  if ci then case_variants pattern else [encode_ignore pattern].

(** The buffer with a zero byte at every offset that [f] selects;
    [pos] is the offset of the first byte of [data]. *)
Fixpoint mask (f : nat -> bool) (pos : nat) (data : bytes) : bytes :=
  match data with
  | [] => []
  | b :: rest => (if f pos then x00 else b) :: mask f (S pos) rest
  end.

(** Offset [i] lies in [start, start + n). *)
Definition in_slice (start n i : nat) : bool :=
  (start <=? i) && (i <? start + n).

(** Offset [i] lies in the range of one of the entries. *)
Definition coveredb (entries : list entry) (i : nat) : bool :=
  existsb (fun e => in_slice (entry_offset e) (length (entry_bytes e)) i)
          entries.


(* ================================================================== *)
(** ** The caller: [_start_patching] and [_run_patching] *)
(* ================================================================== *)

(** [str.isspace] on the code points 0..255: the characters that
    [str.strip()] removes. *)
Definition is_space (c : ascii) : bool :=
  in_rng 9 13 c || in_rng 28 32 c || (ord c =? 133)%N || (ord c =? 160)%N.

Fixpoint lstrip (s : str) : str :=
  match s with
  | [] => []
  | c :: t => if is_space c then lstrip t else s
  end.

Definition rstrip (s : str) : str := rev (lstrip (rev s)).

(** [s.strip()] *)
Definition strip (s : str) : str := rstrip (lstrip s).

(** [s.split("\n")], [cur] being the characters of the line in
    progress. *)
Fixpoint split_lines (s : str) (cur : str) : list str :=
  match s with
  | [] => [cur]
  | c :: t =>
      if ascii_eqb c "010" then cur :: split_lines t []
      else split_lines t (cur ++ [c])
  end.

(** Line 328: [[p.strip() for p in text.strip().split("\n") if p.strip()]],
    [text] being the contents of the patterns box. *)
Definition parse_patterns (text : str) : list str :=
  map strip
      (filter (fun p => negb (is_empty (strip p)))
              (split_lines (strip text) [])).

(** Line 347: [self.placeholder_entry.get() or "REMOVED"]. *)
Definition placeholder_or_default (entry : str) : str :=
  if is_empty entry then str_of "REMOVED" else entry.

(** How [_run_patching] ends: the early return when the folder holds no
    clip file, the summary with its two counters, or the exception caught
    by [except Exception]. *)
Inductive batch_outcome : Type :=
| NoClipFiles
| Done (total_files_patched total_patterns_patched : nat)
| Failed (e : pyerror).

Section Batch.

Variable set_iter : list bytes -> list bytes.

(** [for i, file_path in enumerate(files)] (lines 370-390) on the
    contents of the files, in the order of [files].  An exception leaves
    the loop: the files not reached yet stay as they are.  The progress
    bar and the log lines sent to the window are left out. *)
Fixpoint patch_files (files : list bytes) (patterns : list str)
         (mode : string) (placeholder : str) (case_insensitive : bool)
         (total_files_patched total_patterns_patched : nat)
  : list bytes * batch_outcome :=
  match files with
  | [] => ([], Done total_files_patched total_patterns_patched)
  | file :: rest =>
      match patch_file set_iter file patterns mode placeholder
                       case_insensitive with
      | (file', Raise e) => (file' :: rest, Failed e)
      | (file', Ok (patches_count, _)) =>
          let (rest', outcome) :=
            if 0 <? patches_count
            then patch_files rest patterns mode placeholder case_insensitive
                             (total_files_patched + 1)
                             (total_patterns_patched + patches_count)
            else patch_files rest patterns mode placeholder case_insensitive
                             total_files_patched total_patterns_patched in
          (file' :: rest', outcome)
      end
  end.

(** [_run_patching] on the contents of the clip files of the folder. *)
Definition run_patching (files : list bytes) (patterns : list str)
           (mode : string) (placeholder_entry : str)
           (case_insensitive : bool) : list bytes * batch_outcome :=
  let placeholder := placeholder_or_default placeholder_entry in
  if is_empty files then (files, NoClipFiles)
  else patch_files files patterns mode placeholder case_insensitive 0 0.

End Batch.

(* ================================================================== *)
(** ** Vocabulary of the further properties *)
(* ================================================================== *)

(** What one pattern finds in [data]. *)
Definition found_hits (set_iter : list bytes -> list bytes) (data : bytes)
           (pattern : str) (ci : bool) : list hit :=
  if is_wildcard pattern
  then map hit_of_run
           (filter (fun run => satisfies pattern ci (snd run))
                   (extract_runs data))
  else find_exact_matches set_iter data pattern ci.

(** What the patterns find, in the order of [all_matches] before it is
    sorted. *)
Definition all_found (set_iter : list bytes -> list bytes) (data : bytes)
           (patterns : list str) (ci : bool) : list entry :=
  flat_map (fun pattern =>
              map (with_pattern pattern) (found_hits set_iter data pattern ci))
           patterns.

(** The log entry of a match. *)
Definition log_of_entry (e : entry) : log_entry :=
  match e with
  | (start_idx, matched_str, matched_bytes, original_pattern) =>
      mk_log matched_str original_pattern start_idx
  end.

(** The entry processed last among those that cover offset [i]. *)
Fixpoint last_cover (entries : list entry) (i : nat) : option entry :=
  match entries with
  | [] => None
  | e :: rest =>
      match last_cover rest i with
      | Some e' => Some e'
      | None =>
          if in_slice (entry_offset e) (length (entry_bytes e)) i
          then Some e else None
      end
  end.

(** The mode is one of the two that [patch_file] knows and, in
    placeholder mode, there is a placeholder to repeat. *)
Definition usable_mode (mode : string) (placeholder : str) : Prop :=
  mode = "null"%string \/ (mode = "placeholder"%string /\ placeholder <> []).

(** The run ends before the next one starts, with a byte in between. *)
Definition run_before (a b : nat * str) : Prop :=
  fst a + length (snd a) < fst b.

(** The file the batch leaves for [file], and what [patch_file] answers
    for it. *)
Definition patched (set_iter : list bytes -> list bytes) (patterns : list str)
           (mode : string) (placeholder : str) (ci : bool) (file : bytes)
  : bytes :=
  fst (patch_file set_iter file patterns mode placeholder ci).

Definition patch_count (set_iter : list bytes -> list bytes)
           (patterns : list str) (mode : string) (placeholder : str)
           (ci : bool) (file : bytes) : option nat :=
  match snd (patch_file set_iter file patterns mode placeholder ci) with
  | Ok (n, _) => Some n
  | Raise _ => None
  end.


(** A run ends at the end of the buffer or before a byte that is not
    printable. *)
Definition boundary (post : bytes) : Prop :=
  post = [] \/ exists b post', post = b :: post' /\ printable b = false.


(** The order of the sorted matches: the offset does not increase. *)
Definition offset_ge (a b : entry) : Prop := entry_offset b <= entry_offset a.


(** The string does not start with a whitespace character. *)
Definition starts_clean (s : str) : Prop :=
  match s with
  | c :: _ => is_space c = false
  | [] => True
  end.

(** No whitespace at either end. *)
Definition trimmed (s : str) : Prop := starts_clean s /\ starts_clean (rev s).

(** The count [patch_file] returns for [file], 0 when it raises. *)
Definition count_of (set_iter : list bytes -> list bytes)
           (patterns : list str) (mode : string) (placeholder : str)
           (ci : bool) (file : bytes) : nat :=
  match patch_count set_iter patterns mode placeholder ci file with
  | Some n => n
  | None => 0
  end.


(** Offset [i] lies inside the run. *)
Definition run_covers (run : nat * str) (i : nat) : Prop :=
  fst run <= i < fst run + length (snd run).

(** The hits of one wildcard pattern do not touch: each ends before the
    next one starts. *)
Definition hit_before (a b : hit) : Prop :=
  hit_offset a + length (hit_bytes a) < hit_offset b.

(** What a pattern of stars makes of a byte in null mode. *)
Definition blank_printable (b : byte) : byte :=
  if printable b then x00 else b.

(* ================================================================== *)
(** * Properties *)
(* ================================================================== *)

(** ** The replacement of one match *)

Lemma length_str_repeat (s : str) (k : nat) :
  length (str_repeat s k) = k * length s.
Proof.
  unfold str_repeat. induction k as [|k IH]; simpl; [reflexivity|].
  rewrite length_app, IH. reflexivity.
Qed.

Lemma length_encode_ignore_le (s : str) :
  length (encode_ignore s) <= length s.
Proof.
  unfold encode_ignore. rewrite length_map. apply filter_length_le.
Qed.

(** Enough copies of a non-empty placeholder cover [n] characters. *)
Lemma repeat_covers (placeholder : str) (n : nat) :
  placeholder <> [] ->
  n <= length (str_repeat placeholder (n / length placeholder + 1)).
Proof.
  intros Hne. rewrite length_str_repeat.
  assert (Hlen : length placeholder <> 0) by (destruct placeholder; simpl; congruence).
  pose proof (Nat.div_mod_eq n (length placeholder)) as Hdm.
  pose proof (Nat.mod_upper_bound n (length placeholder) Hlen) as Hmod.
  nia.
Qed.

Lemma make_repl_null (placeholder : str) (matched_bytes : bytes) :
  make_repl "null" placeholder matched_bytes
  = Ok (repeat x00 (length matched_bytes)).
Proof. reflexivity. Qed.

Lemma make_repl_placeholder (placeholder : str) (matched_bytes : bytes) :
  placeholder <> [] ->
  let n := length matched_bytes in
  let ph := firstn n (str_repeat placeholder (n / length placeholder + 1)) in
  let enc := encode_ignore ph in
  make_repl "placeholder" placeholder matched_bytes
  = Ok (firstn n (enc ++ repeat x00 (n - length enc)))
  /\ length (firstn n (enc ++ repeat x00 (n - length enc))) = n.
Proof.
  intros Hne n ph enc. unfold make_repl. simpl String.eqb. cbv iota.
  destruct (length placeholder =? 0) eqn:E.
  { apply Nat.eqb_eq in E. destruct placeholder; simpl in E; congruence. }
  fold n. fold ph. fold enc.
  assert (Hph : length ph = n).
  { unfold ph. rewrite length_firstn. apply Nat.min_l.
    apply repeat_covers. exact Hne. }
  assert (Henc : length enc <= n).
  { unfold enc. rewrite <- Hph. apply length_encode_ignore_le. }
  split.
  - destruct (length enc <? n) eqn:L.
    + reflexivity.
    + apply Nat.ltb_ge in L.
      replace (n - length enc) with 0 by lia. simpl. rewrite app_nil_r.
      reflexivity.
  - rewrite length_firstn, length_app, repeat_length. lia.
Qed.

Lemma make_repl_unknown (mode : string) (placeholder : str) (matched_bytes : bytes) :
  mode <> "null"%string -> mode <> "placeholder"%string ->
  make_repl mode placeholder matched_bytes = Raise (ValueError_unknown_mode mode).
Proof.
  intros H1 H2. unfold make_repl.
  apply String.eqb_neq in H1, H2. rewrite H1, H2. reflexivity.
Qed.

(** Whatever the mode, a replacement that is produced has the length of
    the match. *)
Lemma make_repl_length (mode : string) (placeholder : str)
      (matched_bytes repl : bytes) :
  make_repl mode placeholder matched_bytes = Ok repl ->
  length repl = length matched_bytes.
Proof.
  unfold make_repl.
  destruct (String.eqb mode "null").
  { intros [= <-]. apply repeat_length. }
  destruct (String.eqb mode "placeholder"); [|discriminate].
  destruct (length placeholder =? 0) eqn:E; [discriminate|].
  apply Nat.eqb_neq in E.
  assert (Hne : placeholder <> []) by (intros ->; apply E; reflexivity).
  destruct (make_repl_placeholder matched_bytes Hne) as [Heq Hlen].
  unfold make_repl in Heq. simpl String.eqb in Heq. cbv iota in Heq.
  apply Nat.eqb_neq in E. rewrite E in Heq.
  intros H. rewrite H in Heq. injection Heq as ->. exact Hlen.
Qed.



(** ** The patch loop *)

Lemma mmap_setslice_length (m : bytes) (start stop : nat) (repl m' : bytes) :
  mmap_setslice m start stop repl = Ok m' -> length m' = length m.
Proof.
  unfold mmap_setslice.
  destruct (length repl =? _) eqn:E; [|discriminate].
  apply Nat.eqb_eq in E. intros [= <-].
  rewrite !length_app, length_firstn, length_skipn, E. lia.
Qed.

(** A slice assignment leaves the bytes outside [start, stop) alone. *)
Lemma mmap_setslice_outside (m : bytes) (start stop : nat) (repl m' : bytes) (i : nat) :
  mmap_setslice m start stop repl = Ok m' ->
  ~ (start <= i < stop) ->
  nth_error m' i = nth_error m i.
Proof.
  unfold mmap_setslice.
  destruct (length repl =? _) eqn:E; [|discriminate].
  apply Nat.eqb_eq in E. intros [= <-] Hout.
  set (a := Nat.min start (length m)) in *.
  set (n := Nat.min stop (length m) - a) in *.
  destruct (Nat.lt_ge_cases i a) as [Hlt|Hge].
  - rewrite nth_error_app1 by (rewrite length_firstn; lia).
    rewrite nth_error_firstn.
    apply Nat.ltb_lt in Hlt. rewrite Hlt. reflexivity.
  - assert (Hi : a + n <= i) by (unfold a, n in *; lia).
    rewrite nth_error_app2 by (rewrite length_firstn; lia).
    rewrite nth_error_app2 by (rewrite length_firstn; lia).
    rewrite nth_error_skipn, length_firstn, E. f_equal.
    unfold a, n in *. lia.
Qed.

(** Inside the slice the replacement is read back. *)
Lemma mmap_setslice_inside (m : bytes) (start : nat) (repl m' : bytes) (i : nat) :
  mmap_setslice m start (start + length repl) repl = Ok m' ->
  start <= i < start + length repl ->
  nth_error m' i = nth_error repl (i - start).
Proof.
  unfold mmap_setslice.
  destruct (length repl =? _) eqn:E; [|discriminate].
  apply Nat.eqb_eq in E. intros [= <-] Hin.
  assert (Ha : Nat.min start (length m) = start) by lia.
  rewrite Ha in *.
  rewrite nth_error_app2 by (rewrite length_firstn; lia).
  rewrite length_firstn.
  rewrite nth_error_app1 by lia.
  f_equal. lia.
Qed.

(** An assignment that fits in the map succeeds. *)
Lemma mmap_setslice_fits (m : bytes) (start : nat) (repl : bytes) :
  start + length repl <= length m ->
  exists m', mmap_setslice m start (start + length repl) repl = Ok m'.
Proof.
  intros Hfit. unfold mmap_setslice.
  replace (length repl =? _) with true; [eexists; reflexivity|].
  symmetry. apply Nat.eqb_eq. lia.
Qed.

Lemma patch_loop_frame (mode : string) (placeholder : str)
      (all_matches : list entry) (st : patch_state) :
  let st' := fst (patch_loop mode placeholder all_matches st) in
  length (mm st') = length (mm st)
  /\ forall i, (forall e, In e all_matches -> ~ covers e i) ->
               nth_error (mm st') i = nth_error (mm st) i.
Proof.
  revert st. induction all_matches as [|[[[start_idx matched_str] matched_bytes] pat] rest IH];
    intros st; simpl.
  - split; [reflexivity|intros; reflexivity].
  - destruct (make_repl mode placeholder matched_bytes) as [repl|err] eqn:Hr; simpl.
    2:{ split; [reflexivity|intros; reflexivity]. }
    destruct (mmap_setslice (mm st) start_idx _ repl) as [m'|err] eqn:Hs; simpl.
    2:{ split; [reflexivity|intros; reflexivity]. }
    specialize (IH (mk_patch m' (total_patches st + 1)
                             (log_entries st ++ [mk_log matched_str pat start_idx]))).
    simpl in IH. destruct IH as [IHlen IHout].
    split.
    + rewrite IHlen. eapply mmap_setslice_length; exact Hs.
    + intros i Hout. rewrite IHout.
      * eapply mmap_setslice_outside; [exact Hs|].
        specialize (Hout _ (or_introl eq_refl)). exact Hout.
      * intros e He. apply Hout. right. exact He.
Qed.

Lemma insert_desc_perm (x : entry) (l : list entry) :
  Permutation (insert_desc x l) (x :: l).
Proof.
  induction l as [|y t IH]; simpl; [apply Permutation_refl|].
  destruct (entry_offset x <? entry_offset y).
  - eapply Permutation_trans; [apply perm_skip, IH|apply perm_swap].
  - apply Permutation_refl.
Qed.

Lemma sort_desc_perm (l : list entry) : Permutation (sort_desc l) l.
Proof.
  induction l as [|x l IH]; simpl; [apply perm_nil|].
  eapply Permutation_trans; [apply insert_desc_perm|apply perm_skip, IH].
Qed.

Lemma sort_desc_in (l : list entry) (e : entry) :
  In e (sort_desc l) <-> In e l.
Proof.
  split; apply Permutation_in; [|apply Permutation_sym]; apply sort_desc_perm.
Qed.

Lemma sort_desc_is_empty (l : list entry) :
  is_empty (sort_desc l) = is_empty l.
Proof.
  pose proof (Permutation_length (sort_desc_perm l)) as H.
  destruct l as [|x l], (sort_desc _); simpl in *;
    (reflexivity || discriminate).
Qed.

Lemma patch_file_frame (set_iter : list bytes -> list bytes) (file : bytes)
      (patterns : list str) (mode : string) (placeholder : str) (ci : bool) :
  let file' := fst (patch_file set_iter file patterns mode placeholder ci) in
  match collect_matches set_iter file patterns ci [] with
  | Ok all_matches =>
      length file' = length file
      /\ forall i, (forall e, In e all_matches -> ~ covers e i) ->
                   nth_error file' i = nth_error file i
  | Raise _ => file' = file
  end.
Proof.
  unfold patch_file.
  destruct (collect_matches set_iter file patterns ci []) as [all_matches|err];
    simpl; [|reflexivity].
  destruct (is_empty (sort_desc all_matches)); simpl.
  { split; [reflexivity|intros; reflexivity]. }
  destruct (is_empty file); simpl.
  { split; [reflexivity|intros; reflexivity]. }
  pose proof (patch_loop_frame mode placeholder (sort_desc all_matches)
                               (mk_patch file 0 [])) as Hframe.
  destruct (patch_loop mode placeholder (sort_desc all_matches) (mk_patch file 0 []))
    as [st err]. simpl in Hframe. destruct Hframe as [Hlen Hout].
  assert (Hmm : fst (match err with
                     | Some e => (mm st, Raise e)
                     | None => (mm st, Ok (total_patches st, log_entries st))
                     end) = mm st) by (destruct err; reflexivity).
  rewrite Hmm. split; [exact Hlen|].
  intros i Hi. apply Hout. intros e He. apply Hi. apply sort_desc_in. exact He.
Qed.

(** C1.  For every buffer, every list of matches and every mode (the two
    recognised ones included), the patch loop leaves the length of the
    buffer unchanged and every byte outside the ranges
    [offset, offset + len(matched_bytes)) of the matches equal to its
    original value; the same holds of the file across [patch_file]. *)
Theorem patching_keeps_length_and_unmatched_bytes :
  (forall (mode : string) (placeholder : str) (all_matches : list entry)
          (st : patch_state),
      let st' := fst (patch_loop mode placeholder all_matches st) in
      length (mm st') = length (mm st)
      /\ forall i, (forall e, In e all_matches -> ~ covers e i) ->
                   nth_error (mm st') i = nth_error (mm st) i)
  /\ (forall (set_iter : list bytes -> list bytes) (file : bytes)
             (patterns : list str) (mode : string) (placeholder : str)
             (ci : bool),
         let file' := fst (patch_file set_iter file patterns mode placeholder ci) in
         match collect_matches set_iter file patterns ci [] with
         | Ok all_matches =>
             length file' = length file
             /\ forall i, (forall e, In e all_matches -> ~ covers e i) ->
                          nth_error file' i = nth_error file i
         | Raise _ => file' = file
         end).
Proof.
  split.
  - intros. apply patch_loop_frame.
  - intros. apply patch_file_frame.
Qed.

Lemma patching_keeps_length_and_unmatched_bytes_witness :
  let file := (bytes_of "foo" ++ [x00] ++ bytes_of "BADWORD" ++ [x00]
               ++ bytes_of "bar")%list in
  let file' := fst (patch_file sample_order file [str_of "BADWORD"] "placeholder"
                               (str_of "AB") false) in
  length file' = 15 /\ nth_error file' 12 = Some "b"%byte.
Proof.
  intros file file'.
  destruct patching_keeps_length_and_unmatched_bytes as [_ H].
  specialize (H sample_order file [str_of "BADWORD"] "placeholder"%string
                (str_of "AB") false).
  change (collect_matches sample_order file [str_of "BADWORD"] false [])
    with (Ok [(4, str_of "BADWORD", bytes_of "BADWORD", str_of "BADWORD")]
          : result (list entry)) in H.
  cbv zeta in H. destruct H as [Hlen Hout]. fold file' in Hlen, Hout.
  split.
  - rewrite Hlen. reflexivity.
  - rewrite Hout; [reflexivity|].
    intros e [<-|[]]. unfold covers. simpl. lia.
Defined.

(** ** An unrecognised mode *)

Lemma patch_loop_unknown_mode (mode : string) (placeholder : str)
      (e : entry) (rest : list entry) (st : patch_state) :
  mode <> "null"%string -> mode <> "placeholder"%string ->
  patch_loop mode placeholder (e :: rest) st
  = (st, Some (ValueError_unknown_mode mode)).
Proof.
  intros H1 H2. destruct e as [[[start_idx matched_str] matched_bytes] pat].
  simpl. rewrite make_repl_unknown by assumption. reflexivity.
Qed.

(** The claim of C8 fails when nothing was found: the mode is then never
    looked at and [patch_file] returns normally. *)
Lemma unknown_mode_without_match_returns :
  patch_file sample_order (bytes_of "foo") [str_of "BADWORD"] "bogus"
             (str_of "REMOVED") false
  = (bytes_of "foo", Ok (0, [])).
Proof. vm_compute. reflexivity. Qed.

(** C8, amended.  With a mode that is neither [null] nor [placeholder]
    the patch loop stops with ValueError at its first match, before any
    byte is written, count and log untouched: no match is patched and
    there is no per-match fallback.  The loop is entered only when a
    match was found; with no match [patch_file] returns [(0, [])] without
    an error.  In every case the file is left as it was. *)
Theorem unknown_mode_fails_at_first_match
        (mode : string)
        (Hnull : mode <> "null"%string)
        (Hplaceholder : mode <> "placeholder"%string) :
  (forall placeholder e rest st,
      patch_loop mode placeholder (e :: rest) st
      = (st, Some (ValueError_unknown_mode mode)))
  /\ (forall set_iter file patterns placeholder ci,
         fst (patch_file set_iter file patterns mode placeholder ci) = file)
  /\ (forall set_iter file patterns placeholder ci e rest,
         collect_matches set_iter file patterns ci [] = Ok (e :: rest) ->
         exists err,
           patch_file set_iter file patterns mode placeholder ci
           = (file, Raise err))
  /\ (forall set_iter file patterns placeholder ci,
         collect_matches set_iter file patterns ci [] = Ok [] ->
         patch_file set_iter file patterns mode placeholder ci
         = (file, Ok (0, []))).
Proof.
  split; [|split; [|split]].
  - intros. apply patch_loop_unknown_mode; assumption.
  - intros. unfold patch_file.
    destruct (collect_matches set_iter file patterns ci []) as [ms|err];
      [|reflexivity]. cbv beta iota zeta.
    destruct (sort_desc ms) as [|e rest]; [reflexivity|]. cbn [is_empty].
    destruct (is_empty file); [reflexivity|].
    rewrite patch_loop_unknown_mode by assumption. reflexivity.
  - intros set_iter file patterns placeholder ci e rest Hc.
    unfold patch_file. rewrite Hc. cbv beta iota zeta.
    pose proof (sort_desc_is_empty (e :: rest)) as Hs.
    destruct (sort_desc (e :: rest)) as [|e' rest']; [discriminate|].
    cbn [is_empty].
    destruct (is_empty file); [eexists; reflexivity|].
    rewrite patch_loop_unknown_mode by assumption.
    eexists; reflexivity.
  - intros set_iter file patterns placeholder ci Hc.
    unfold patch_file. rewrite Hc. reflexivity.
Qed.

Lemma unknown_mode_fails_at_first_match_witness :
  let file := (bytes_of "foo" ++ [x00] ++ bytes_of "BADWORD")%list in
  exists err,
    patch_file sample_order file [str_of "BADWORD"] "bogus" (str_of "REMOVED")
               false
    = (file, Raise err).
Proof.
  intros file.
  assert (H1 : "bogus"%string <> "null"%string) by discriminate.
  assert (H2 : "bogus"%string <> "placeholder"%string) by discriminate.
  destruct (unknown_mode_fails_at_first_match H1 H2) as (_ & _ & Hfile & _).
  apply (Hfile sample_order file [str_of "BADWORD"] (str_of "REMOVED") false
               (4, str_of "BADWORD", bytes_of "BADWORD", str_of "BADWORD") []).
  reflexivity.
Defined.

(** ** An empty placeholder *)



(** ** The literal search *)

Lemma starts_with_spec (sub data : bytes) :
  starts_with sub data = true <-> exists post, data = sub ++ post.
Proof.
  revert data. induction sub as [|x sub IH]; intros data; simpl.
  - split; [intros _; exists data; reflexivity|reflexivity].
  - destruct data as [|y data].
    + split; [discriminate|intros [post H]; discriminate].
    + rewrite andb_true_iff, IH. split.
      * intros [Hxy [post ->]]. apply Byte.byte_dec_bl in Hxy. subst.
        exists post. reflexivity.
      * intros [post [= -> ->]]. split; [apply Byte.byte_dec_lb; reflexivity|].
        exists post. reflexivity.
Qed.

Lemma occurs_atb_spec (data sub : bytes) (i : nat) :
  occurs_atb data sub i = true <-> occurs_at data sub i.
Proof.
  unfold occurs_atb, occurs_at. rewrite andb_true_iff, Nat.leb_le, starts_with_spec.
  split.
  - intros [Hi [post Hpost]]. exists (firstn i data), post. split.
    + rewrite <- Hpost. symmetry. apply firstn_skipn.
    + rewrite length_firstn. lia.
  - intros (pre & post & -> & <-). split.
    + rewrite length_app. lia.
    + exists post. rewrite skipn_app, Nat.sub_diag, skipn_all. reflexivity.
Qed.

Lemma find_at_some (sub data : bytes) (pos idx : nat) :
  find_at sub data pos = Some idx ->
  pos <= idx <= pos + length data
  /\ starts_with sub (skipn (idx - pos) data) = true
  /\ forall j, j < idx - pos -> starts_with sub (skipn j data) = false.
Proof.
  revert pos. induction data as [|b data IH]; intros pos; simpl.
  - destruct (starts_with sub []) eqn:E; [|discriminate].
    intros [= <-]. rewrite Nat.sub_diag. simpl.
    split; [lia|]. split; [exact E|]. intros j Hj. lia.
  - destruct (starts_with sub (b :: data)) eqn:E.
    + intros [= <-]. rewrite Nat.sub_diag. simpl.
      split; [lia|]. split; [exact E|]. intros j Hj. lia.
    + intros H. apply IH in H. destruct H as (Hb & Hs & Hmin).
      split; [lia|].
      replace (idx - pos) with (S (idx - S pos)) by lia. simpl.
      split; [exact Hs|].
      intros [|j] Hj; simpl; [exact E|]. apply Hmin. lia.
Qed.

Lemma find_at_none (sub data : bytes) (pos : nat) :
  find_at sub data pos = None ->
  forall j, j <= length data -> starts_with sub (skipn j data) = false.
Proof.
  revert pos. induction data as [|b data IH]; intros pos; simpl.
  - destruct (starts_with sub []) eqn:E; [discriminate|].
    intros _ j Hj. destruct j; simpl; exact E.
  - destruct (starts_with sub (b :: data)) eqn:E; [discriminate|].
    intros H [|j] Hj; simpl; [exact E|].
    eapply IH; [exact H|lia].
Qed.

Lemma bytes_find_some (data sub : bytes) (start idx : nat) :
  bytes_find data sub start = Some idx ->
  start <= idx <= length data
  /\ occurs_atb data sub idx = true
  /\ forall j, start <= j < idx -> occurs_atb data sub j = false.
Proof.
  unfold bytes_find. destruct (start <=? length data) eqn:E; [|discriminate].
  apply Nat.leb_le in E. intros H. apply find_at_some in H.
  rewrite length_skipn in H. destruct H as (Hb & Hs & Hmin).
  rewrite skipn_skipn in Hs.
  split; [lia|]. split.
  - unfold occurs_atb. replace (idx - start + start) with idx in Hs by lia.
    rewrite Hs. replace (idx <=? length data) with true; [reflexivity|].
    symmetry. apply Nat.leb_le. lia.
  - intros j Hj. unfold occurs_atb.
    specialize (Hmin (j - start)). rewrite skipn_skipn in Hmin.
    replace (j - start + start) with j in Hmin by lia.
    rewrite Hmin by lia. apply andb_false_r.
Qed.

Lemma bytes_find_none (data sub : bytes) (start : nat) :
  bytes_find data sub start = None ->
  forall j, start <= j -> occurs_atb data sub j = false.
Proof.
  unfold bytes_find, occurs_atb. intros H j Hj.
  destruct (j <=? length data) eqn:Ej; [|reflexivity].
  apply Nat.leb_le in Ej.
  replace (start <=? length data) with true in H
    by (symmetry; apply Nat.leb_le; lia).
  pose proof (@find_at_none _ _ _ H (j - start)) as Hn.
  rewrite length_skipn, skipn_skipn in Hn.
  replace (j - start + start) with j in Hn by lia.
  rewrite Hn by lia. reflexivity.
Qed.

Lemma filter_all_false {A} (f : A -> bool) (l : list A) :
  (forall x, In x l -> f x = false) -> filter f l = [].
Proof.
  induction l as [|x l IH]; simpl; intros H; [reflexivity|].
  rewrite (H x) by (left; reflexivity). apply IH.
  intros y Hy. apply H. right. exact Hy.
Qed.

(** The loop returns, in increasing order, exactly the offsets from
    [start] on at which the candidate occurs. *)
Lemma find_all_spec (data candidate : bytes) (start : nat) :
  find_all data candidate start
  = filter (occurs_atb data candidate) (seq start (S (length data) - start)).
Proof.
  funelim (find_all data candidate start).
  - match goal with IH : find_all _ _ _ = filter _ _ |- _ => rewrite IH end.
    destruct (@bytes_find_some data candidate start idx e) as (Hb & Hocc & Hmin).
    replace (S (length data) - start)
      with ((idx - start) + S (S (length data) - (idx + 1))) by lia.
    rewrite seq_app, filter_app.
    rewrite (@filter_all_false _ _ (seq start (idx - start))).
    2:{ intros j Hj. apply in_seq in Hj. apply Hmin. lia. }
    replace (start + (idx - start)) with idx by lia.
    simpl. rewrite Hocc. rewrite Nat.add_1_r. reflexivity.
  - symmetry. apply filter_all_false.
    intros j Hj. apply in_seq in Hj.
    eapply bytes_find_none; [exact e|lia].
Qed.

Lemma occurs_atb_beyond (data sub : bytes) (i : nat) :
  occurs_atb data sub i = true -> i <= length data.
Proof.
  unfold occurs_atb. intros H. apply andb_true_iff in H.
  destruct H as [H _]. apply Nat.leb_le in H. exact H.
Qed.

Lemma find_all_in (data candidate : bytes) (i : nat) :
  In i (find_all data candidate 0) <-> occurs_at data candidate i.
Proof.
  rewrite find_all_spec, filter_In, in_seq, occurs_atb_spec.
  split; [tauto|]. intros H. split; [|exact H].
  apply occurs_atb_spec, occurs_atb_beyond in H. lia.
Qed.

Lemma find_all_nodup (data candidate : bytes) (start : nat) :
  NoDup (find_all data candidate start).
Proof.
  rewrite find_all_spec. apply NoDup_filter, seq_NoDup.
Qed.

(** C6.  The case-sensitive literal search looks at the raw bytes and
    returns one match for each offset at which the bytes of the pattern
    occur, overlapping occurrences included, in increasing order of
    offset; each match carries the pattern and its bytes.  The pattern
    [AA] in the bytes [AAA] gives two matches, at offsets 0 and 1. *)
Theorem literal_search_finds_every_occurrence
        (set_iter : list bytes -> list bytes) (data : bytes) (pattern : str) :
  let pattern_bytes := encode_ignore pattern in
  let found := find_exact_matches set_iter data pattern false in
  found = map (fun idx => (idx, pattern, pattern_bytes))
              (filter (occurs_atb data pattern_bytes) (seq 0 (S (length data))))
  /\ (forall i, occurs_at data pattern_bytes i
                <-> In (i, pattern, pattern_bytes) found)
  /\ NoDup (map hit_offset found)
  /\ find_exact_matches set_iter (bytes_of "AAA") (str_of "AA") false
     = [(0, str_of "AA", bytes_of "AA"); (1, str_of "AA", bytes_of "AA")].
Proof.
  intros pattern_bytes found.
  assert (Hfound : found = map (fun idx => (idx, pattern, pattern_bytes))
                               (find_all data pattern_bytes 0)) by reflexivity.
  split; [|split; [|split]].
  - rewrite Hfound, find_all_spec, Nat.sub_0_r. reflexivity.
  - intros i. rewrite Hfound, <- find_all_in, in_map_iff. split.
    + intros Hi. exists i. split; [reflexivity|exact Hi].
    + intros (j & [= ->] & Hj). exact Hj.
  - rewrite Hfound, map_map. unfold hit_offset. simpl.
    rewrite map_id. apply find_all_nodup.
  - vm_compute. reflexivity.
Qed.

(** ** The case-insensitive literal search *)

Lemma sample_order_ok : set_order sample_order.
Proof. intros l. apply Permutation_refl. Qed.

Lemma candidate_hits_in (data candidate : bytes) (h : hit) :
  In h (candidate_hits data candidate)
  <-> occurs_at data candidate (hit_offset h)
      /\ hit_text h = decode_ignore candidate
      /\ hit_bytes h = candidate.
Proof.
  unfold candidate_hits. rewrite in_map_iff. split.
  - intros (i & <- & Hi). apply find_all_in in Hi. simpl. auto.
  - destruct h as [[i txt] cand]. unfold hit_offset, hit_text, hit_bytes.
    simpl. intros (Hi & -> & ->).
    exists i. split; [reflexivity|]. apply find_all_in. exact Hi.
Qed.

Lemma candidate_hits_nodup (data candidate : bytes) :
  NoDup (candidate_hits data candidate).
Proof.
  unfold candidate_hits.
  apply (@NoDup_map_inv _ _ hit_offset).
  rewrite map_map. unfold hit_offset. simpl. rewrite map_id.
  apply find_all_nodup.
Qed.

Lemma flat_map_hits_nodup (data : bytes) (cands : list bytes) :
  NoDup cands -> NoDup (flat_map (candidate_hits data) cands).
Proof.
  induction 1 as [|c cands Hc Hnd IH]; simpl; [constructor|].
  apply NoDup_app; [apply candidate_hits_nodup|exact IH|].
  intros h Hh Hin. apply candidate_hits_in in Hh.
  apply in_flat_map in Hin. destruct Hin as (c' & Hc' & Hh').
  apply candidate_hits_in in Hh'.
  destruct Hh as (_ & _ & E1), Hh' as (_ & _ & E2).
  apply Hc. rewrite <- E1, E2. exact Hc'.
Qed.

Lemma find_exact_matches_ci (set_iter : list bytes -> list bytes)
      (data : bytes) (pattern : str) :
  find_exact_matches set_iter data pattern true
  = flat_map (candidate_hits data) (set_iter (case_variants pattern)).
Proof. reflexivity. Qed.

Section CaseInsensitive.

Variable set_iter : list bytes -> list bytes.
Hypothesis set_iter_ok : set_order set_iter.

Lemma find_exact_matches_ci_perm (data : bytes) (pattern : str) :
  Permutation (find_exact_matches set_iter data pattern true)
              (flat_map (candidate_hits data)
                        (nodup bytes_eq_dec (case_variants pattern))).
Proof.
  rewrite find_exact_matches_ci.
  apply Permutation_flat_map. apply set_iter_ok.
Qed.

Lemma find_exact_matches_ci_in (data : bytes) (pattern : str) (h : hit) :
  In h (find_exact_matches set_iter data pattern true)
  <-> In (hit_bytes h) (case_variants pattern)
      /\ occurs_at data (hit_bytes h) (hit_offset h)
      /\ hit_text h = decode_ignore (hit_bytes h).
Proof.
  split.
  - intros Hin.
    apply (Permutation_in _ (find_exact_matches_ci_perm data pattern)) in Hin.
    apply in_flat_map in Hin. destruct Hin as (c & Hc & Hh).
    apply nodup_In in Hc. apply candidate_hits_in in Hh.
    destruct Hh as (Ho & Ht & Hb). rewrite Hb. auto.
  - intros (Hc & Ho & Ht).
    apply (Permutation_in _ (Permutation_sym (find_exact_matches_ci_perm data pattern))).
    apply in_flat_map. exists (hit_bytes h). split.
    + apply nodup_In. exact Hc.
    + apply candidate_hits_in. auto.
Qed.

Lemma find_exact_matches_ci_nodup (data : bytes) (pattern : str) :
  NoDup (find_exact_matches set_iter data pattern true).
Proof.
  apply (Permutation_NoDup (Permutation_sym (find_exact_matches_ci_perm data pattern))).
  apply flat_map_hits_nodup, NoDup_nodup.
Qed.

End CaseInsensitive.

(** The example of C3 fails: of the three spellings in the buffer only
    two are found; [Test] is none of the three variants of [test]. *)
Lemma mixed_case_occurrence_is_missed :
  let found := find_exact_matches sample_order (bytes_of "TEST Test test")
                                  (str_of "test") true in
  length found = 2
  /\ ~ In (5, str_of "Test", bytes_of "Test") found.
Proof.
  vm_compute. split; [reflexivity|].
  intros [H|[H|[]]]; discriminate.
Qed.

(** C3, amended.  With case-insensitive set, the literal search looks for
    three byte strings, the pattern as written, lower-cased and
    upper-cased, each searched on its own and identical byte strings
    searched once, and returns the union of their hits: a hit is an
    occurrence of one of the three variants, carried with the text of
    that variant, so with the casing found on disk, and no hit is
    returned twice.  For the pattern [test] and a buffer holding [TEST],
    [Test] and [test], the occurrences [TEST] and [test] are returned,
    each with its own casing. *)
Theorem case_insensitive_search_unions_three_variants
        (set_iter : list bytes -> list bytes) (Hset : set_order set_iter)
        (data : bytes) (pattern : str) :
  let found := find_exact_matches set_iter data pattern true in
  Permutation found
              (flat_map (candidate_hits data)
                        (nodup bytes_eq_dec (case_variants pattern)))
  /\ (forall h, In h found
                <-> In (hit_bytes h) (case_variants pattern)
                    /\ occurs_at data (hit_bytes h) (hit_offset h)
                    /\ hit_text h = decode_ignore (hit_bytes h))
  /\ NoDup found
  /\ (let example := find_exact_matches set_iter (bytes_of "TEST Test test")
                                        (str_of "test") true in
      In (0, str_of "TEST", bytes_of "TEST") example
      /\ In (10, str_of "test", bytes_of "test") example).
Proof.
  intros found. split; [|split; [|split]].
  - apply find_exact_matches_ci_perm. exact Hset.
  - intros h. apply find_exact_matches_ci_in. exact Hset.
  - apply find_exact_matches_ci_nodup. exact Hset.
  - cbv zeta. split.
    + apply (Permutation_in _ (Permutation_sym
               (find_exact_matches_ci_perm Hset _ _))).
      vm_compute. auto.
    + apply (Permutation_in _ (Permutation_sym
               (find_exact_matches_ci_perm Hset _ _))).
      vm_compute. auto.
Qed.

Lemma case_insensitive_search_unions_three_variants_witness :
  NoDup (find_exact_matches sample_order (bytes_of "TEST Test test")
                            (str_of "test") true).
Proof.
  destruct (@case_insensitive_search_unions_three_variants
              sample_order sample_order_ok (bytes_of "TEST Test test")
              (str_of "test")) as (_ & _ & H & _).
  exact H.
Defined.

(** ** The compiled expression *)

Lemma is_empty_true {A} (l : list A) : is_empty l = true <-> l = [].
Proof. destruct l; simpl; split; congruence. Qed.

(** A leading star skips any prefix of the text. *)
Lemma rx_match_star (ci : bool) (r : list rx) (s : str) :
  rx_match ci (RStar :: r) s = true
  <-> exists s0 s1, s = s0 ++ s1 /\ rx_match ci r s1 = true.
Proof.
  induction s as [|ch s IH].
  - simpl. rewrite orb_false_r. split.
    + intros H. exists [], []. auto.
    + intros (s0 & s1 & Hs & H). symmetry in Hs.
      apply app_eq_nil in Hs. destruct Hs as [_ ->]. exact H.
  - change (rx_match ci (RStar :: r) (ch :: s))
      with (rx_match ci r (ch :: s) || rx_match ci (RStar :: r) s).
    rewrite orb_true_iff, IH. split.
    + intros [H|(s0 & s1 & -> & H)].
      * exists [], (ch :: s). auto.
      * exists (ch :: s0), s1. auto.
    + intros (s0 & s1 & Hs & H). destruct s0 as [|c0 s0]; simpl in Hs.
      * left. rewrite Hs. exact H.
      * right. injection Hs as _ ->. exists s0, s1. auto.
Qed.

Lemma rx_eq_star (x : rx) : {x = RStar} + {x <> RStar}.
Proof. destruct x; (left; reflexivity) || (right; discriminate). Qed.

Lemma rx_match_atom (ci : bool) (a : rx) (r : list rx) (s : str) :
  a <> RStar ->
  rx_match ci (a :: r) s
  = match s with
    | [] => false
    | ch :: t => atom_match ci a ch && rx_match ci r t
    end.
Proof. destruct a; (congruence || reflexivity). Qed.

(** The strings matched by [a ++ b] are the concatenations of a string
    matched by [a] and a string matched by [b]. *)
Lemma rx_match_app (ci : bool) (a b : list rx) (s : str) :
  rx_match ci (a ++ b) s = true
  <-> exists s1 s2, s = s1 ++ s2
                    /\ rx_match ci a s1 = true /\ rx_match ci b s2 = true.
Proof.
  revert s. induction a as [|x a IH]; intros s.
  - simpl. split.
    + intros H. exists [], s. auto.
    + intros (s1 & s2 & -> & H1 & H2). apply is_empty_true in H1.
      subst. exact H2.
  - destruct (rx_eq_star x) as [->|Hx].
    + change ((RStar :: a) ++ b) with (RStar :: (a ++ b)).
      rewrite rx_match_star. split.
      * intros (s0 & s' & -> & H). apply IH in H.
        destruct H as (s1 & s2 & -> & H1 & H2).
        exists (s0 ++ s1), s2. rewrite app_assoc. split; [reflexivity|].
        split; [|exact H2]. apply rx_match_star. exists s0, s1. auto.
      * intros (s1 & s2 & -> & H1 & H2). apply rx_match_star in H1.
        destruct H1 as (s0 & s1' & -> & H1).
        exists s0, (s1' ++ s2). rewrite app_assoc. split; [reflexivity|].
        apply IH. exists s1', s2. auto.
    + change ((x :: a) ++ b) with (x :: (a ++ b)).
      rewrite rx_match_atom by exact Hx. split.
      * destruct s as [|ch t]; [discriminate|].
        intros H. apply andb_true_iff in H. destruct H as [Hc H].
        apply IH in H. destruct H as (s1 & s2 & -> & H1 & H2).
        exists (ch :: s1), s2. split; [reflexivity|]. split; [|exact H2].
        rewrite rx_match_atom by exact Hx. rewrite Hc, H1. reflexivity.
      * intros (s1 & s2 & -> & H1 & H2).
        rewrite rx_match_atom in H1 by exact Hx.
        destruct s1 as [|ch t]; [discriminate|]. simpl.
        apply andb_true_iff in H1. destruct H1 as [Hc H1].
        rewrite Hc. simpl. apply IH. exists t, s2. auto.
Qed.












Lemma index_of_none (c : ascii) (l : str) :
  has_char c l = false -> index_of c l = None.
Proof.
  induction l as [|x l IH]; simpl; [reflexivity|].
  intros H. apply orb_false_iff in H. destruct H as [Hx Hl].
  rewrite Hx, (IH Hl). reflexivity.
Qed.

Lemma has_char_skipn (c : ascii) (n : nat) (l : str) :
  has_char c l = false -> has_char c (skipn n l) = false.
Proof.
  revert l. induction n as [|n IH]; intros l H; [exact H|].
  destruct l as [|x l]; [reflexivity|]. simpl in *.
  apply orb_false_iff in H. apply IH. apply H.
Qed.

(** A pattern without [[] and a pattern without []] have no bracket
    expression. *)
Lemma brackets_open_without (pat : str) :
  has_char "[" pat = false \/ has_char "]" pat = false ->
  brackets_open pat = true.
Proof.
  induction pat as [|c pat IH]; [reflexivity|]. simpl.
  intros [H|H]; apply orb_false_iff in H; destruct H as [Hc Hpat].
  - rewrite Hc. simpl. apply IH. left. exact Hpat.
  - rewrite IH by (right; exact Hpat). rewrite andb_true_r.
    destruct (ascii_eqb c "["); [|reflexivity].
    unfold closing_index.
    rewrite index_of_none; [reflexivity|].
    apply has_char_skipn. exact Hpat.
Qed.

(** Without a star in the pattern no STAR is appended. *)
Lemma translate_loop_no_star (pat : str) (res : list piece) :
  has_char "*" pat = false ->
  forallb (fun p => negb (is_star p)) res = true ->
  forallb (fun p => negb (is_star p)) (translate_loop pat res) = true.
Proof.
  funelim (translate_loop pat res); intros Hpat Hres.
  - exact Hres.
  - simpl in Hpat. apply orb_false_iff in Hpat. destruct Hpat as [Hc Hrest].
    rewrite Hc.
    assert (Hadd : forall p, is_star p = false ->
                     forallb (fun p => negb (is_star p)) (res ++ [p]) = true).
    { intros p Hp. rewrite forallb_app, Hres. simpl. rewrite Hp. reflexivity. }
    destruct (ascii_eqb c "?").
    { apply H0; [exact Hrest|apply Hadd; reflexivity]. }
    destruct (ascii_eqb c "[").
    + destruct (closing_index rest) as [j|].
      * apply H1; [apply has_char_skipn; exact Hrest|].
        apply Hadd. unfold set_piece.
        destruct (set_stuff (firstn j rest)) as [|x t]; [reflexivity|].
        destruct (ascii_eqb x "!"); [destruct (is_empty t); reflexivity|].
        destruct (ascii_eqb x "^" || ascii_eqb x "["); reflexivity.
      * apply H2; [exact Hrest|apply Hadd; reflexivity].
    + apply H3; [exact Hrest|apply Hadd; reflexivity].
Qed.

Lemma compile_piece_star (p : piece) (r : rx) :
  compile_piece p = Some r -> is_star p = false -> r <> RStar.
Proof.
  destruct p; simpl; try (intros [= <-]; discriminate).
  unfold compile_set. destruct (set_tokens body) as [toks|]; [|discriminate].
  destruct (match toks with
            | [] => (false, toks)
            | t :: toks' => if is_raw "^" t then (true, toks') else (false, toks)
            end) as [negate toks'].
  destruct (set_items toks'); simpl; [|discriminate].
  intros [= <-] _. discriminate.
Qed.

Lemma re_compile_no_star (ps : list piece) (r : list rx) :
  re_compile ps = Some r ->
  forallb (fun p => negb (is_star p)) ps = true ->
  length r = length ps /\ Forall (fun a => a <> RStar) r.
Proof.
  revert r. induction ps as [|p ps IH]; simpl; intros r.
  - intros [= <-] _. split; [reflexivity|constructor].
  - destruct (compile_piece p) as [a|] eqn:Ea; [|discriminate].
    destruct (re_compile ps) as [rs|]; [|discriminate].
    intros [= <-] H. apply andb_true_iff in H. destruct H as [Hp Hps].
    destruct (IH rs eq_refl Hps) as [Hlen Hall].
    split; [simpl; rewrite Hlen; reflexivity|].
    constructor; [|exact Hall].
    eapply compile_piece_star; [exact Ea|].
    destruct (is_star p); [discriminate|reflexivity].
Qed.

(** An expression without a star only matches texts that have one
    character for each of its items. *)
Lemma rx_match_no_star_length (ci : bool) (r : list rx) (s : str) :
  Forall (fun a => a <> RStar) r ->
  rx_match ci r s = true -> length s = length r.
Proof.
  intros Hall. revert s. induction Hall as [|a r Ha Hall IH]; intros s.
  - simpl. intros H. apply is_empty_true in H. subst. reflexivity.
  - rewrite rx_match_atom by exact Ha.
    destruct s as [|ch t]; [discriminate|].
    intros H. apply andb_true_iff in H. destruct H as [_ H].
    simpl. rewrite (IH _ H). reflexivity.
Qed.

Lemma match_runs_in (pattern_regex : list rx) (ci : bool)
      (runs : list (nat * str)) (acc matches : list hit) (m : hit) :
  match_runs pattern_regex ci runs acc = Ok matches ->
  In m matches ->
  In m acc
  \/ exists start_pos, In (start_pos, hit_text m) runs
                       /\ hit_offset m = start_pos
                       /\ rx_match ci pattern_regex (hit_text m) = true.
Proof.
  revert acc. induction runs as [|[start_pos ascii_str] runs IH]; intros acc; simpl.
  - intros [= <-] Hin. left. exact Hin.
  - destruct (rx_match ci pattern_regex ascii_str) eqn:Em.
    + destruct (encode_strict ascii_str) as [matched_bytes|]; [|discriminate].
      intros Hrun Hin. destruct (IH _ Hrun Hin) as [Hacc|(sp & Hsp & Ho & Hm)].
      * apply in_app_or in Hacc. destruct Hacc as [Hacc|[<-|[]]].
        -- left. exact Hacc.
        -- right. exists start_pos. simpl. auto.
      * right. exists sp. auto.
    + intros Hrun Hin. destruct (IH _ Hrun Hin) as [Hacc|(sp & Hsp & Ho & Hm)].
      * left. exact Hacc.
      * right. exists sp. auto.
Qed.

(** The claim of C2 fails: the run [ABCDEF] starts with a match of
    [ABC?] and is not matched. *)
Lemma prefix_of_run_is_not_a_match :
  find_wildcard_matches (bytes_of "ABCDEF") (str_of "ABC?") false = Ok []
  /\ is_wildcard (str_of "ABC?") = true.
Proof. vm_compute. split; reflexivity. Qed.

(** A lone star matches every text. *)
Lemma rx_match_lone_star (ci : bool) (s : str) : rx_match ci [RStar] s = true.
Proof.
  apply rx_match_star. exists s, []. rewrite app_nil_r. auto.
Qed.

(** An expression that ends with an item other than a star matches that
    item against the last character of the text. *)
Lemma rx_match_last (ci : bool) (r : list rx) (a : rx) (s : str) :
  a <> RStar ->
  rx_match ci (r ++ [a]) s = true ->
  exists s' ch, s = s' ++ [ch]
                /\ atom_match ci a ch = true /\ rx_match ci r s' = true.
Proof.
  intros Ha H. apply rx_match_app in H. destruct H as (s1 & s2 & -> & H1 & H2).
  rewrite rx_match_atom in H2 by exact Ha.
  destruct s2 as [|ch t]; [discriminate|].
  apply andb_true_iff in H2. destruct H2 as [Hch Ht].
  apply is_empty_true in Ht. subst t. exists s1, ch. auto.
Qed.

(** An expression that ends with a star matches every text that extends
    a text it matches. *)
Lemma rx_match_open_end (ci : bool) (r : list rx) (s t : str) :
  rx_match ci (r ++ [RStar]) s = true ->
  rx_match ci (r ++ [RStar]) (s ++ t) = true.
Proof.
  intros H. apply rx_match_app in H. destruct H as (s1 & s2 & -> & H1 & _).
  apply rx_match_app. exists s1, (s2 ++ t). rewrite app_assoc.
  split; [reflexivity|]. split; [exact H1|apply rx_match_lone_star].
Qed.

(** C2, amended.  The matcher tests a wildcard pattern against the whole
    text of a run: the expression is tried at position 0 and closed by
    [\Z], so that a run whose text goes on after what the pattern
    accounts for is not matched.  A pattern without [*] only matches runs
    that have exactly one character for each item of the pattern, and no
    longer text that starts with such a run; whenever the expression ends
    with an item other than a star, that item is matched against the
    last character of the run; only an expression that ends with a star
    also matches the texts that extend a matched text.  The run [ABCDEF]
    is not matched by [ABC?], the run [ABCD] is, and [ABCDEF] is matched
    by [ABC*], whose star takes the rest of the run. *)
Theorem wildcard_match_covers_whole_run (pattern : str) (ci : bool) :
  (has_char "*" pattern = false ->
   (forall data matches m,
       find_wildcard_matches data pattern ci = Ok matches ->
       In m matches ->
       length (hit_text m) = length (translate pattern))
   /\ (forall r s t,
          re_compile (translate pattern) = Some r ->
          rx_match ci r s = true -> t <> [] ->
          rx_match ci r (s ++ t) = false))
  /\ (forall r a s,
         re_compile (translate pattern) = Some (r ++ [a]) -> a <> RStar ->
         rx_match ci (r ++ [a]) s = true ->
         exists s' ch, s = s' ++ [ch]
                       /\ atom_match ci a ch = true
                       /\ rx_match ci r s' = true)
  /\ (forall r s t,
         re_compile (translate pattern) = Some (r ++ [RStar]) ->
         rx_match ci (r ++ [RStar]) s = true ->
         rx_match ci (r ++ [RStar]) (s ++ t) = true)
  /\ find_wildcard_matches (bytes_of "ABCDEF") (str_of "ABC?") false = Ok []
  /\ find_wildcard_matches (bytes_of "ABCD") (str_of "ABC?") false
     = Ok [(0, str_of "ABCD", bytes_of "ABCD")]
  /\ find_wildcard_matches (bytes_of "ABCDEF") (str_of "ABC*") false
     = Ok [(0, str_of "ABCDEF", bytes_of "ABCDEF")].
Proof.
  split; [|split; [|split; [|split; [|split]]]].
  - intros Hstar.
    assert (Hlen : forall r s, re_compile (translate pattern) = Some r ->
                     rx_match ci r s = true ->
                     length s = length (translate pattern)).
    { intros r s Hr Hm.
      destruct (@re_compile_no_star (translate pattern) r Hr) as [Hl Hall].
      { apply translate_loop_no_star; [exact Hstar|reflexivity]. }
      rewrite <- Hl. eapply rx_match_no_star_length; eassumption. }
    split.
    + intros data matches m Hfind Hin. unfold find_wildcard_matches in Hfind.
      destruct (re_compile (translate pattern)) as [r|] eqn:Er.
      * destruct (match_runs_in _ _ _ _ m Hfind Hin) as [[]|(sp & _ & _ & Hm)].
        eapply Hlen; [reflexivity|exact Hm].
      * injection Hfind as <-. destruct Hin.
    + intros r s t Hr Hm Ht.
      destruct (rx_match ci r (s ++ t)) eqn:E; [|reflexivity].
      apply (Hlen r _ Hr) in E. apply (Hlen r _ Hr) in Hm.
      rewrite length_app in E. destruct t; [congruence|]. simpl in E. lia.
  - intros r a s _ Ha Hm. apply rx_match_last; assumption.
  - intros r s t _ Hm. apply rx_match_open_end. exact Hm.
  - vm_compute. reflexivity.
  - vm_compute. reflexivity.
  - vm_compute. reflexivity.
Qed.

Lemma wildcard_match_covers_whole_run_witness :
  has_char "*" (str_of "AB?D") = false
  /\ length (hit_text (3, str_of "abcd", bytes_of "abcd"))
     = length (translate (str_of "AB?D")).
Proof.
  assert (Hstar : has_char "*" (str_of "AB?D") = false) by reflexivity.
  split; [exact Hstar|].
  destruct (wildcard_match_covers_whole_run (str_of "AB?D") true)
    as (H & _).
  destruct (H Hstar) as [Hlen _].
  apply (Hlen (bytes_of "xy" ++ [x00] ++ bytes_of "abcd")%list
              [(3, str_of "abcd", bytes_of "abcd")]).
  - vm_compute. reflexivity.
  - left. reflexivity.
Defined.




(** ** The runs of printable bytes *)

Lemma scan_loop_runs (data : bytes) (st : scan_state) (i : nat) :
  (current_string st = [] \/ current_start st = i - length (current_string st)) ->
  flush (scan_loop st i data)
  = ascii_strings st ++ runs_from i (current_string st) data.
Proof.
  revert st i. induction data as [|b rest IH]; intros st i Hinv.
  - simpl. unfold flush, pending.
    destruct (current_string st) as [|c cur] eqn:E; simpl.
    + rewrite app_nil_r. reflexivity.
    + destruct Hinv as [Hinv|Hinv]; [discriminate|]. rewrite Hinv. reflexivity.
  - simpl. unfold scan_step. destruct (printable b) eqn:Ep.
    + rewrite IH; [reflexivity|]. simpl. right.
      rewrite length_app. simpl.
      destruct (current_string st) as [|c cur] eqn:E; simpl.
      * lia.
      * destruct Hinv as [Hinv|Hinv]; [discriminate|]. rewrite Hinv. simpl. lia.
    + destruct (current_string st) as [|c cur] eqn:E; simpl.
      * rewrite IH by (left; exact E). rewrite E. reflexivity.
      * rewrite IH by (left; reflexivity). simpl.
        destruct Hinv as [Hinv|Hinv]; [discriminate|]. rewrite Hinv, <- app_assoc.
        reflexivity.
Qed.

Lemma extract_runs_runs_from (data : bytes) :
  extract_runs data = runs_from 0 [] data.
Proof.
  unfold extract_runs. fold (flush (scan_loop (mk_scan [] [] 0) 0 data)).
  rewrite scan_loop_runs by (left; reflexivity). reflexivity.
Qed.

(** A stretch of printable bytes is added to the run in progress. *)
Lemma runs_from_printable (r rest : bytes) (pos : nat) (cur : str) :
  forallb printable r = true ->
  runs_from pos cur (r ++ rest)
  = runs_from (pos + length r) (cur ++ map chr r) rest.
Proof.
  revert pos cur. induction r as [|b r IH]; intros pos cur Hr; simpl.
  - rewrite Nat.add_0_r, app_nil_r. reflexivity.
  - simpl in Hr. apply andb_true_iff in Hr. destruct Hr as [Hb Hr].
    rewrite Hb, IH by exact Hr. rewrite <- app_assoc. simpl.
    f_equal. lia.
Qed.

(** The scan can be cut after a byte that is not printable. *)
Lemma runs_from_cut (pre : bytes) (b : byte) (rest : bytes) (pos : nat) (cur : str) :
  printable b = false ->
  runs_from pos cur (pre ++ b :: rest)
  = runs_from pos cur (pre ++ [b]) ++ runs_from (pos + length pre + 1) [] rest.
Proof.
  intros Hb. revert pos cur. induction pre as [|x pre IH]; intros pos cur; simpl.
  - rewrite Hb. simpl. rewrite app_nil_r, Nat.add_0_r, Nat.add_1_r. reflexivity.
  - destruct (printable x).
    + rewrite IH. f_equal. f_equal. lia.
    + rewrite IH, app_assoc. f_equal. f_equal. lia.
Qed.

Lemma pending_bounds (pos : nat) (cur : str) (o : nat) (t : str) :
  length cur <= pos ->
  In (o, t) (pending pos cur) ->
  t <> [] /\ pos - length cur <= o /\ o + length t <= pos.
Proof.
  unfold pending. destruct cur as [|c cur]; simpl; [tauto|].
  intros Hle [[= <- <-]|[]]. split; [discriminate|]. simpl. lia.
Qed.

(** Every run lies inside the part of the buffer that was scanned for
    it and has at least one character. *)
Lemma runs_from_bounds (data : bytes) (pos : nat) (cur : str) (o : nat) (t : str) :
  length cur <= pos ->
  In (o, t) (runs_from pos cur data) ->
  t <> [] /\ pos - length cur <= o /\ o + length t <= pos + length data.
Proof.
  revert pos cur. induction data as [|b rest IH]; intros pos cur Hle; simpl.
  - intros Hin. apply pending_bounds in Hin; [|exact Hle].
    destruct Hin as (Hne & Hlo & Hhi). split; [exact Hne|lia].
  - destruct (printable b).
    + intros Hin. apply IH in Hin; [|rewrite length_app; simpl; lia].
      rewrite length_app in Hin. cbn [length] in Hin.
      destruct Hin as (Hne & Hlo & Hhi). split; [exact Hne|lia].
    + intros Hin. apply in_app_or in Hin. destruct Hin as [Hin|Hin].
      * apply pending_bounds in Hin; [|exact Hle].
        destruct Hin as (Hne & Hlo & Hhi). split; [exact Hne|lia].
      * apply IH in Hin; [|simpl; lia]. cbn [length] in Hin.
        destruct Hin as (Hne & Hlo & Hhi). split; [exact Hne|lia].
Qed.

Lemma printable_is_ascii (b : byte) :
  printable b = true -> is_ascii (chr b) = true.
Proof. destruct b; vm_compute; congruence. Qed.

Lemma pending_ascii (pos : nat) (cur : str) (o : nat) (t : str) :
  forallb is_ascii cur = true ->
  In (o, t) (pending pos cur) -> forallb is_ascii t = true.
Proof.
  unfold pending. destruct cur as [|c cur]; simpl; [tauto|].
  intros H [[= <- <-]|[]]. exact H.
Qed.

(** The text of a run is made of ASCII characters. *)
Lemma runs_from_ascii (data : bytes) (pos : nat) (cur : str) (o : nat) (t : str) :
  forallb is_ascii cur = true ->
  In (o, t) (runs_from pos cur data) -> forallb is_ascii t = true.
Proof.
  revert pos cur. induction data as [|b rest IH]; intros pos cur Hcur; simpl.
  - apply pending_ascii. exact Hcur.
  - destruct (printable b) eqn:Ep.
    + apply IH. rewrite forallb_app, Hcur. simpl.
      rewrite printable_is_ascii by exact Ep. reflexivity.
    + intros Hin. apply in_app_or in Hin. destruct Hin as [Hin|Hin].
      * eapply pending_ascii; eassumption.
      * eapply IH; [|exact Hin]. reflexivity.
Qed.

Lemma encode_strict_ascii (t : str) :
  forallb is_ascii t = true -> encode_strict t = Some (map byte_of_ascii t).
Proof. unfold encode_strict. intros ->. reflexivity. Qed.

Lemma encode_chr (r : bytes) : map byte_of_ascii (map chr r) = r.
Proof.
  rewrite map_map. unfold chr.
  rewrite (map_ext _ (fun b => b)) by (intros; apply byte_of_ascii_of_byte).
  apply map_id.
Qed.

(** On runs of ASCII text the loop over the runs raises nothing and
    appends one match for each run the expression matches. *)
Lemma match_runs_ok (pattern_regex : list rx) (ci : bool)
      (runs : list (nat * str)) (acc : list hit) :
  (forall o t, In (o, t) runs -> forallb is_ascii t = true) ->
  match_runs pattern_regex ci runs acc
  = Ok (acc ++ map hit_of_run
                  (filter (fun run => rx_match ci pattern_regex (snd run)) runs)).
Proof.
  revert acc. induction runs as [|[o t] runs IH]; intros acc Hascii; simpl.
  - rewrite app_nil_r. reflexivity.
  - assert (Hrest : forall o' t', In (o', t') runs -> forallb is_ascii t' = true).
    { intros o' t' Hin. eapply Hascii. right. exact Hin. }
    destruct (rx_match ci pattern_regex t).
    + rewrite encode_strict_ascii by (eapply Hascii; left; reflexivity).
      rewrite IH by exact Hrest. simpl. rewrite <- app_assoc. reflexivity.
    + apply IH. exact Hrest.
Qed.

(** [find_wildcard_matches] never raises: it returns the matches made
    from the runs whose text satisfies the pattern, in the order of the
    runs. *)
Lemma find_wildcard_matches_spec (data : bytes) (pattern : str) (ci : bool) :
  find_wildcard_matches data pattern ci
  = Ok (map hit_of_run
            (filter (fun run => satisfies pattern ci (snd run))
                    (extract_runs data))).
Proof.
  unfold find_wildcard_matches, satisfies.
  destruct (re_compile (translate pattern)) as [pattern_regex|].
  - rewrite match_runs_ok; [reflexivity|].
    intros o t Hin. rewrite extract_runs_runs_from in Hin.
    eapply runs_from_ascii; [|exact Hin]. reflexivity.
  - rewrite filter_all_false by reflexivity. reflexivity.
Qed.

(** A maximal run at the head of the buffer is the first run found, and
    the runs found after it start beyond its end. *)
Lemma runs_from_run (r post : bytes) (pos : nat) :
  r <> [] -> forallb printable r = true ->
  (post = [] \/ exists b post', post = b :: post' /\ printable b = false) ->
  exists later,
    runs_from pos [] (r ++ post) = (pos, map chr r) :: later
    /\ later = runs_from (pos + length r + 1) [] (tl post)
    /\ forall o t, In (o, t) later -> pos + length r < o.
Proof.
  intros Hne Hr Hpost.
  rewrite runs_from_printable by exact Hr. simpl.
  assert (Hpend : pending (pos + length r) (map chr r) = [(pos, map chr r)]).
  { unfold pending. destruct r as [|b r]; [congruence|]. simpl.
    rewrite length_map. do 2 f_equal. lia. }
  exists (runs_from (pos + length r + 1) [] (tl post)).
  split; [|split; [reflexivity|]].
  - destruct Hpost as [->|(b & post' & -> & Hb)]; simpl.
    + rewrite Hpend. reflexivity.
    + rewrite Hb, Hpend, Nat.add_1_r. reflexivity.
  - intros o t Hin. apply runs_from_bounds in Hin; [|simpl; lia].
    simpl in Hin. lia.
Qed.

(** Where a maximal run sits in the list of runs. *)
Lemma extract_runs_at_run (data : bytes) (start : nat) (r : bytes) :
  is_run data start r ->
  exists before later,
    extract_runs data = before ++ (start, map chr r) :: later
    /\ (forall o t, In (o, t) before -> o < start)
    /\ (forall o t, In (o, t) later -> start < o).
Proof.
  intros (Hne & Hr & pre & post & -> & <- & Hpre & Hpost).
  rewrite extract_runs_runs_from.
  destruct Hpre as [->|(pre' & b & -> & Hb)].
  - destruct (runs_from_run 0 Hne Hr Hpost) as (later & Heq & _ & Hlater).
    exists [], later. simpl. split; [exact Heq|]. split.
    + intros o t [].
    + intros o t Hin. apply Hlater in Hin. lia.
  - rewrite <- app_assoc. simpl. rewrite runs_from_cut by exact Hb.
    destruct (runs_from_run (0 + length pre' + 1) Hne Hr Hpost)
      as (later & Heq & _ & Hlater).
    exists (runs_from 0 [] (pre' ++ [b])), later.
    rewrite Heq. rewrite length_app. simpl.
    split; [reflexivity|]. split.
    + intros o t Hin. pose proof Hin as Hin'.
      apply runs_from_bounds in Hin; [|simpl; lia].
      destruct Hin as (Ht & _ & Hhi). rewrite length_app in Hhi. simpl in Hhi.
      destruct t; [congruence|]. simpl in Hhi. lia.
    + intros o t Hin. apply Hlater in Hin. lia.
Qed.

Lemma filter_offset_none (f : nat * str -> bool) (runs : list (nat * str))
      (start : nat) :
  (forall o t, In (o, t) runs -> o <> start) ->
  filter (fun m => hit_offset m =? start) (map hit_of_run (filter f runs)) = [].
Proof.
  intros H. apply filter_all_false. intros m Hm.
  apply in_map_iff in Hm. destruct Hm as ([o t] & <- & Hin).
  apply filter_In in Hin. destruct Hin as [Hin _].
  apply Nat.eqb_neq. unfold hit_offset, hit_of_run. simpl.
  eapply H. exact Hin.
Qed.

(** C5.  Every run of printable bytes whose text satisfies a wildcard
    pattern yields exactly one match at the start offset of the run, and
    the text and the bytes of that match are the whole run, whatever part
    of it the literal characters of the pattern account for: the matches
    are the extracted runs that satisfy the pattern, one match for each,
    and the only match at the offset of a maximal run is the run itself.
    The pattern [ABC*] against a run with the text [ABCDEF] yields one
    match, at the start of the run, with the text [ABCDEF]. *)
Theorem matching_run_yields_one_whole_run_match
        (data : bytes) (pattern : str) (ci : bool) (start : nat) (r : bytes)
        (Hrun : is_run data start r)
        (Hsat : satisfies pattern ci (map chr r) = true) :
  (exists matches,
      find_wildcard_matches data pattern ci = Ok matches
      /\ matches = map hit_of_run
                       (filter (fun run => satisfies pattern ci (snd run))
                               (extract_runs data))
      /\ filter (fun m => hit_offset m =? start) matches
         = [(start, map chr r, r)])
  /\ find_wildcard_matches ([x00] ++ bytes_of "ABCDEF" ++ [x01; x02])
                           (str_of "ABC*") false
     = Ok [(1, str_of "ABCDEF", bytes_of "ABCDEF")].
Proof.
  split; [|vm_compute; reflexivity].
  rewrite find_wildcard_matches_spec. eexists. split; [reflexivity|].
  split; [reflexivity|].
  destruct (extract_runs_at_run Hrun) as (before & later & -> & Hb & Hl).
  rewrite filter_app, map_app, filter_app. simpl. rewrite Hsat. simpl.
  rewrite filter_offset_none.
  2:{ intros o t Hin. apply Hb in Hin. lia. }
  rewrite filter_offset_none.
  2:{ intros o t Hin. apply Hl in Hin. lia. }
  unfold hit_offset at 1. simpl. rewrite Nat.eqb_refl.
  unfold hit_of_run. simpl. rewrite encode_chr. reflexivity.
Qed.

Lemma matching_run_yields_one_whole_run_match_witness :
  exists matches,
    find_wildcard_matches ([x00] ++ bytes_of "abcdef" ++ [x01]) (str_of "ABC*") true
    = Ok matches
    /\ filter (fun m => hit_offset m =? 1) matches
       = [(1, str_of "abcdef", bytes_of "abcdef")].
Proof.
  assert (Hrun : is_run ([x00] ++ bytes_of "abcdef" ++ [x01]) 1 (bytes_of "abcdef")).
  { split; [discriminate|]. split; [reflexivity|].
    exists [x00], [x01]. split; [reflexivity|]. split; [reflexivity|].
    split; right.
    - exists [], x00. split; reflexivity.
    - exists x01, []. split; reflexivity. }
  assert (Hsat : satisfies (str_of "ABC*") true (map chr (bytes_of "abcdef")) = true)
    by reflexivity.
  destruct (@matching_run_yields_one_whole_run_match _ (str_of "ABC*") true _ _
              Hrun Hsat) as ((matches & Hfind & _ & Hone) & _).
  exists matches. split; [exact Hfind|exact Hone].
Defined.

(** ** Patching with zero bytes *)

Lemma length_mask (f : nat -> bool) (pos : nat) (data : bytes) :
  length (mask f pos data) = length data.
Proof.
  revert pos. induction data as [|b rest IH]; intros pos; simpl;
    [reflexivity|rewrite IH; reflexivity].
Qed.

Lemma nth_error_mask (f : nat -> bool) (pos : nat) (data : bytes) (k : nat) :
  nth_error (mask f pos data) k
  = option_map (fun b => if f (pos + k) then x00 else b) (nth_error data k).
Proof.
  revert pos k. induction data as [|b rest IH]; intros pos k.
  - destruct k; reflexivity.
  - destruct k as [|k]; simpl.
    + rewrite Nat.add_0_r. reflexivity.
    + rewrite IH. replace (S pos + k) with (pos + S k) by lia. reflexivity.
Qed.

Lemma mask_ext (f g : nat -> bool) (pos : nat) (data : bytes) :
  (forall i, pos <= i < pos + length data -> f i = g i) ->
  mask f pos data = mask g pos data.
Proof.
  revert pos. induction data as [|b rest IH]; intros pos H; simpl;
    [reflexivity|].
  rewrite (H pos) by (simpl; lia). f_equal. apply IH.
  intros i Hi. apply H. simpl. lia.
Qed.

Lemma mask_app (f : nat -> bool) (pos : nat) (l1 l2 : bytes) :
  mask f pos (l1 ++ l2) = mask f pos l1 ++ mask f (pos + length l1) l2.
Proof.
  revert pos. induction l1 as [|b l1 IH]; intros pos; simpl.
  - rewrite Nat.add_0_r. reflexivity.
  - rewrite IH. do 3 f_equal. lia.
Qed.

Lemma mask_mask (f g : nat -> bool) (pos : nat) (data : bytes) :
  mask g pos (mask f pos data) = mask (fun i => f i || g i) pos data.
Proof.
  revert pos. induction data as [|b rest IH]; intros pos; simpl;
    [reflexivity|].
  rewrite IH. destruct (f pos), (g pos); reflexivity.
Qed.

Lemma mask_none (f : nat -> bool) (pos : nat) (data : bytes) :
  (forall i, pos <= i < pos + length data -> f i = false) ->
  mask f pos data = data.
Proof.
  revert pos. induction data as [|b rest IH]; intros pos H; simpl;
    [reflexivity|].
  rewrite (H pos) by (simpl; lia). f_equal. apply IH.
  intros i Hi. apply H. simpl. lia.
Qed.

Lemma mask_all (f : nat -> bool) (pos : nat) (data : bytes) :
  (forall i, pos <= i < pos + length data -> f i = true) ->
  mask f pos data = repeat x00 (length data).
Proof.
  revert pos. induction data as [|b rest IH]; intros pos H; simpl;
    [reflexivity|].
  rewrite (H pos) by (simpl; lia). f_equal. apply IH.
  intros i Hi. apply H. simpl. lia.
Qed.

Lemma in_slice_spec (start n i : nat) :
  in_slice start n i = true <-> start <= i < start + n.
Proof.
  unfold in_slice. rewrite andb_true_iff, Nat.leb_le, Nat.ltb_lt. tauto.
Qed.

(** Writing [n] zero bytes at [start] is masking the slice. *)
Lemma mmap_setslice_zeros (m : bytes) (start n : nat) :
  start + n <= length m ->
  mmap_setslice m start (start + n) (repeat x00 n)
  = Ok (mask (in_slice start n) 0 m).
Proof.
  intros Hfit.
  pose proof (@mmap_setslice_fits m start (repeat x00 n)) as Hok.
  rewrite repeat_length in Hok. destruct (Hok Hfit) as [m' Hm'].
  rewrite Hm'. f_equal.
  apply nth_error_ext. intros k.
  rewrite nth_error_mask. simpl.
  destruct (in_slice start n k) eqn:Ek.
  - apply in_slice_spec in Ek.
    pose proof (@mmap_setslice_inside m start (repeat x00 n) m' k) as Hin.
    rewrite repeat_length in Hin. rewrite (Hin Hm' Ek).
    rewrite nth_error_repeat by lia.
    destruct (nth_error m k) eqn:En; [reflexivity|].
    apply nth_error_None in En. lia.
  - rewrite (@mmap_setslice_outside m start (start + n) (repeat x00 n) m' k Hm').
    + destruct (nth_error m k); reflexivity.
    + intros Hk. apply in_slice_spec in Hk. congruence.
Qed.

(** In null mode, on matches that lie inside the map, the loop raises
    nothing and leaves the map with zero bytes on the matched ranges. *)
Lemma patch_loop_null (placeholder : str) (entries : list entry)
      (st : patch_state) :
  (forall e, In e entries ->
             entry_offset e + length (entry_bytes e) <= length (mm st)) ->
  exists st',
    patch_loop "null" placeholder entries st = (st', None)
    /\ mm st' = mask (coveredb entries) 0 (mm st)
    /\ total_patches st' = total_patches st + length entries.
Proof.
  revert st. induction entries as [|[[[start_idx matched_str] matched_bytes] pat] rest IH];
    intros st Hfit.
  - exists st. simpl. split; [reflexivity|]. split; [|lia].
    symmetry. apply mask_none. reflexivity.
  - cbn [patch_loop]. rewrite make_repl_null.
    pose proof (Hfit _ (or_introl eq_refl)) as Hhead.
    unfold entry_offset, entry_bytes in Hhead. simpl in Hhead.
    rewrite mmap_setslice_zeros by exact Hhead.
    match goal with |- context [patch_loop _ _ rest ?s] => destruct (IH s) as (st' & Hloop & Hmm & Hcount) end.
    { intros e He. cbn [mm]. rewrite length_mask. apply Hfit. right. exact He. }
    exists st'. split; [exact Hloop|]. split.
    + rewrite Hmm. cbn [mm]. rewrite mask_mask. apply mask_ext.
      intros i _. reflexivity.
    + rewrite Hcount. cbn [total_patches length]. lia.
Qed.

Lemma coveredb_perm (l l' : list entry) (i : nat) :
  Permutation l l' -> coveredb l i = coveredb l' i.
Proof.
  intros Hp. unfold coveredb. apply eq_true_iff_eq.
  rewrite !existsb_exists. split; intros (e & He & Hi); exists e;
    (split; [|exact Hi]).
  - eapply Permutation_in; eassumption.
  - eapply Permutation_in; [apply Permutation_sym|]; eassumption.
Qed.

Lemma coveredb_spec (entries : list entry) (i : nat) :
  coveredb entries i = true <-> exists e, In e entries /\ covers e i.
Proof.
  unfold coveredb, covers. rewrite existsb_exists.
  split; intros (e & He & Hi); exists e; (split; [exact He|]);
    apply in_slice_spec; exact Hi.
Qed.

Lemma collect_one (set_iter : list bytes -> list bytes) (data : bytes)
      (pattern : str) (ci : bool) (hits : list hit) :
  pattern_matches set_iter data pattern ci = Ok hits ->
  collect_matches set_iter data [pattern] ci []
  = Ok (map (with_pattern pattern) hits).
Proof. intros H. simpl. rewrite H. reflexivity. Qed.

(** [patch_file] with one pattern in null mode, when the matches lie
    inside the file: it succeeds and the file gets zero bytes on the
    matched ranges. *)
Lemma patch_file_null (set_iter : list bytes -> list bytes) (data : bytes)
      (pattern : str) (ci : bool) (placeholder : str) (hits : list hit) :
  pattern_matches set_iter data pattern ci = Ok hits ->
  (forall h, In h hits -> hit_offset h + length (hit_bytes h) <= length data) ->
  (hits <> [] -> data <> []) ->
  exists log,
    patch_file set_iter data [pattern] "null" placeholder ci
    = (mask (coveredb (map (with_pattern pattern) hits)) 0 data,
       Ok (length hits, log)).
Proof.
  intros Hhits Hfit Hdata. unfold patch_file.
  rewrite (collect_one _ _ _ _ Hhits). cbv beta iota zeta.
  remember (map (with_pattern pattern) hits) as entries eqn:Eent.
  assert (Hlen : length entries = length hits)
    by (rewrite Eent; apply length_map).
  rewrite sort_desc_is_empty.
  destruct (is_empty entries) eqn:Ee.
  - apply is_empty_true in Ee. rewrite Ee in *.
    destruct hits; [|discriminate]. exists [].
    rewrite mask_none by (intros; reflexivity). reflexivity.
  - assert (Hne : hits <> []).
    { intros ->. rewrite Eent in Ee. discriminate. }
    specialize (Hdata Hne).
    destruct data as [|b data']; [congruence|]. cbn [is_empty].
    destruct (@patch_loop_null placeholder (sort_desc entries)
                               (mk_patch (b :: data') 0 []))
      as (st' & Hloop & Hmm & Hcount).
    { intros e He. apply (proj1 (sort_desc_in _ _)) in He. rewrite Eent in He.
      apply in_map_iff in He. destruct He as (h0 & <- & Hh0).
      cbn [mm]. apply Hfit. exact Hh0. }
    rewrite Hloop. exists (log_entries st'). f_equal.
    + rewrite Hmm. cbn [mm]. apply mask_ext. intros i _.
      apply coveredb_perm, sort_desc_perm.
    + rewrite Hcount. cbn [total_patches].
      rewrite (Permutation_length (sort_desc_perm entries)), Hlen.
      reflexivity.
Qed.

(** ** Searching again after the patch *)

Lemma occurs_at_nth (l c : bytes) (i : nat) :
  occurs_at l c i
  <-> i + length c <= length l
      /\ forall k, k < length c -> nth_error l (i + k) = nth_error c k.
Proof.
  split.
  - intros (pre & post & -> & <-). split.
    + rewrite !length_app. lia.
    + intros k Hk. rewrite nth_error_app2 by lia.
      replace (length pre + k - length pre) with k by lia.
      apply nth_error_app1. exact Hk.
  - intros [Hfit Hnth]. exists (firstn i l), (skipn (length c) (skipn i l)).
    split; [|rewrite length_firstn; lia].
    rewrite <- (firstn_skipn i l) at 1. f_equal.
    rewrite <- (firstn_skipn (length c) (skipn i l)) at 1. f_equal.
    apply nth_error_ext. intros k. rewrite nth_error_firstn.
    destruct (k <? length c) eqn:Ek.
    + apply Nat.ltb_lt in Ek. rewrite nth_error_skipn. apply Hnth. exact Ek.
    + apply Nat.ltb_ge in Ek. symmetry. apply nth_error_None. exact Ek.
Qed.

(** An occurrence of a candidate without zero byte in the masked buffer
    lies outside the mask and is an occurrence in the buffer. *)
Lemma occurs_at_mask (f : nat -> bool) (data c : bytes) (i : nat) :
  ~ In x00 c ->
  occurs_at (mask f 0 data) c i ->
  occurs_at data c i /\ forall k, k < length c -> f (i + k) = false.
Proof.
  intros Hz Hocc. apply occurs_at_nth in Hocc. destruct Hocc as [Hfit Hnth].
  rewrite length_mask in Hfit.
  assert (Hk : forall k, k < length c ->
                 nth_error data (i + k) = nth_error c k /\ f (i + k) = false).
  { intros k Hlt. specialize (Hnth k Hlt). rewrite nth_error_mask in Hnth.
    simpl in Hnth.
    destruct (nth_error c k) as [ck|] eqn:Ec;
      [|apply nth_error_None in Ec; lia].
    destruct (nth_error data (i + k)) as [b|]; [|discriminate].
    simpl in Hnth. destruct (f (i + k)).
    - injection Hnth as <-. exfalso. apply Hz.
      eapply nth_error_In. exact Ec.
    - split; [exact Hnth|reflexivity]. }
  split.
  - apply occurs_at_nth. split; [exact Hfit|]. intros k Hlt. apply Hk, Hlt.
  - intros k Hlt. apply Hk, Hlt.
Qed.

Lemma no_member_nil {A} (l : list A) : (forall x, ~ In x l) -> l = [].
Proof.
  destruct l as [|x l]; [reflexivity|]. intros H. exfalso.
  apply (H x). left. reflexivity.
Qed.

Section LiteralRescan.

Variable set_iter : list bytes -> list bytes.
Hypothesis set_iter_ok : set_order set_iter.

(** The hits of the literal search are the occurrences of the byte
    strings searched for. *)
Lemma find_exact_matches_sound (data : bytes) (pattern : str) (ci : bool) (h : hit) :
  In h (find_exact_matches set_iter data pattern ci) ->
  In (hit_bytes h) (searched pattern ci)
  /\ occurs_at data (hit_bytes h) (hit_offset h).
Proof.
  destruct ci.
  - intros Hin. apply (find_exact_matches_ci_in set_iter_ok) in Hin.
    destruct Hin as (Hc & Ho & _). split; assumption.
  - unfold find_exact_matches. intros Hin. apply in_map_iff in Hin.
    destruct Hin as (i & <- & Hi). apply find_all_in in Hi.
    split; [left; reflexivity|exact Hi].
Qed.

Lemma find_exact_matches_complete (data : bytes) (pattern : str) (ci : bool)
      (c : bytes) (i : nat) :
  In c (searched pattern ci) -> occurs_at data c i ->
  exists h, In h (find_exact_matches set_iter data pattern ci)
            /\ hit_offset h = i /\ hit_bytes h = c.
Proof.
  intros Hc Ho. destruct ci.
  - exists (i, decode_ignore c, c). split; [|split; reflexivity].
    apply (find_exact_matches_ci_in set_iter_ok).
    unfold hit_bytes, hit_offset, hit_text. simpl. auto.
  - destruct Hc as [<-|[]].
    exists (i, pattern, encode_ignore pattern). split; [|split; reflexivity].
    unfold find_exact_matches. apply in_map_iff. exists i.
    split; [reflexivity|]. apply find_all_in. exact Ho.
Qed.

(** After the occurrences of a literal pattern were zeroed, the byte
    strings searched for occur nowhere, provided none of them is empty
    or holds a zero byte. *)
Lemma literal_rescan_finds_nothing (data : bytes) (pattern : str) (ci : bool) :
  (forall c, In c (searched pattern ci) -> c <> [] /\ ~ In x00 c) ->
  let hits := find_exact_matches set_iter data pattern ci in
  let file' := mask (coveredb (map (with_pattern pattern) hits)) 0 data in
  find_exact_matches set_iter file' pattern ci = [].
Proof.
  intros Hc hits file'. apply no_member_nil. intros h Hin.
  apply find_exact_matches_sound in Hin. destruct Hin as [Hcand Hocc].
  destruct (Hc _ Hcand) as [Hne Hz].
  apply occurs_at_mask in Hocc; [|exact Hz]. destruct Hocc as [Hocc Hclear].
  destruct (@find_exact_matches_complete data pattern ci _ _ Hcand Hocc)
    as (h0 & Hh0 & Ho & Hb).
  assert (Hcov : coveredb (map (with_pattern pattern) hits) (hit_offset h) = true).
  { apply coveredb_spec. exists (with_pattern pattern h0). split.
    - apply in_map. exact Hh0.
    - unfold covers, with_pattern, entry_offset, entry_bytes. simpl.
      rewrite Ho, Hb. destruct (hit_bytes h); [congruence|]. simpl. lia. }
  specialize (Hclear 0). rewrite Nat.add_0_r in Hclear.
  rewrite Hclear in Hcov; [discriminate|].
  destruct (hit_bytes h); [congruence|]. simpl. lia.
Qed.

End LiteralRescan.

(** Every buffer starts with a stretch of printable bytes, possibly
    empty, that ends at the end of the buffer or before a byte that is
    not printable. *)
Lemma printable_span (data : bytes) :
  exists r post,
    data = r ++ post /\ forallb printable r = true
    /\ (post = [] \/ exists b post', post = b :: post' /\ printable b = false).
Proof.
  induction data as [|b rest (r & post & -> & Hr & Hpost)].
  - exists [], []. auto.
  - destruct (printable b) eqn:Eb.
    + exists (b :: r), post. simpl. rewrite Eb, Hr. auto.
    + exists [], (b :: r ++ post). split; [reflexivity|].
      split; [reflexivity|]. right. exists b, (r ++ post). auto.
Qed.

(** Stepping over the byte that ends a run, masked or not. *)
Lemma runs_from_boundary (f : nat -> bool) (q : nat) (post : bytes) :
  (post = [] \/ exists b post', post = b :: post' /\ printable b = false) ->
  runs_from q [] post = runs_from (q + 1) [] (tl post)
  /\ runs_from q [] (mask f q post)
     = runs_from (q + 1) [] (mask f (q + 1) (tl post)).
Proof.
  intros [->|(b & post' & -> & Hb)]; simpl; [split; reflexivity|].
  rewrite Hb, Nat.add_1_r. split; [reflexivity|].
  destruct (f q); [|rewrite Hb]; reflexivity.
Qed.

Lemma mask_boundary (f : nat -> bool) (q : nat) (post : bytes) :
  (post = [] \/ exists b post', post = b :: post' /\ printable b = false) ->
  mask f q post = []
  \/ exists b post', mask f q post = b :: post' /\ printable b = false.
Proof.
  intros [->|(b & post' & -> & Hb)]; simpl; [left; reflexivity|].
  right. eexists. eexists. split; [reflexivity|].
  destruct (f q); [reflexivity|exact Hb].
Qed.

Lemma runs_from_zeros (n : nat) (rest : bytes) (pos : nat) :
  runs_from pos [] (repeat x00 n ++ rest) = runs_from (pos + n) [] rest.
Proof.
  revert pos. induction n as [|n IH]; intros pos; simpl.
  - rewrite Nat.add_0_r. reflexivity.
  - rewrite IH. f_equal. lia.
Qed.

(** Scanning a buffer in which the runs selected by [sel], and nothing
    else, were overwritten with zero bytes finds the other runs. *)
Lemma runs_from_mask (sel : str -> bool) (f : nat -> bool) (n : nat) :
  forall (data : bytes) (pos : nat),
    length data <= n ->
    (forall o t i, In (o, t) (runs_from pos [] data) -> sel t = true ->
                   o <= i < o + length t -> f i = true) ->
    (forall i, pos <= i < pos + length data -> f i = true ->
               exists o t, In (o, t) (runs_from pos [] data)
                           /\ sel t = true /\ o <= i < o + length t) ->
    runs_from pos [] (mask f pos data)
    = filter (fun run => negb (sel (snd run))) (runs_from pos [] data).
Proof.
  induction n as [|n IH]; intros data pos Hn F1 F2.
  { destruct data; [reflexivity|simpl in Hn; lia]. }
  destruct data as [|b0 data0] eqn:Edata; [reflexivity|].
  rewrite <- Edata in *.
  destruct (printable_span data) as (r & post & Hsplit & Hr & Hpost).
  assert (Hlen : length data = length r + length post)
    by (rewrite Hsplit; apply length_app).
  assert (Htl : length (tl post) <= n).
  { destruct post as [|b post']; simpl in *.
    - rewrite Edata in Hn. simpl in Hn. 
      assert (length r + 0 = S (length data0)) by (rewrite <- Hlen, Edata; reflexivity).
      lia.
    - rewrite Edata in Hn, Hlen. simpl in *. lia. }
  assert (Hpostlen : length (tl post) = length post - 1)
    by (destruct post; simpl; lia).
  clear Edata b0 data0. subst data.
  rewrite mask_app.
  destruct r as [|b r'] eqn:Er.
  - (* the buffer starts with a byte that is not printable *)
    simpl. rewrite Nat.add_0_r.
    destruct (runs_from_boundary f pos Hpost) as [Hplain Hmasked].
    simpl in F1, F2.
    rewrite Hmasked, Hplain. rewrite Hplain in F1, F2.
    apply IH; [exact Htl|exact F1|].
    intros i Hi Hf. apply F2; [lia|exact Hf].
  - rewrite <- Er in *.
    assert (Hne : r <> []) by (rewrite Er; discriminate).
    clear Er b r'.
    destruct (@runs_from_run r post pos Hne Hr Hpost)
      as (later & Hruns & Hlater & Hafter).
    rewrite Hruns in *. simpl.
    assert (IHlater :
              runs_from (pos + length r + 1) [] (mask f (pos + length r + 1) (tl post))
              = filter (fun run => negb (sel (snd run))) later).
    { rewrite Hlater. apply IH; [exact Htl| |].
      - intros o t i Hin. apply F1. right. rewrite Hlater. exact Hin.
      - intros i Hi Hf. destruct (F2 i) as (o & t & [Heq|Hin] & Hs & Hrange).
        + lia.
        + exact Hf.
        + injection Heq as <- <-. rewrite length_map in Hrange. lia.
        + exists o, t. rewrite <- Hlater. auto. }
    destruct (sel (map chr r)) eqn:Esel; simpl.
    + (* a selected run: it was zeroed *)
      rewrite mask_all.
      2:{ intros i Hi. apply (F1 pos (map chr r) i).
          - left. reflexivity.
          - exact Esel.
          - rewrite length_map. exact Hi. }
      rewrite runs_from_zeros.
      destruct (runs_from_boundary f (pos + length r) Hpost) as [_ Hmasked].
      rewrite Hmasked. exact IHlater.
    + (* a run that was not selected: it is still there *)
      rewrite mask_none.
      2:{ intros i Hi. destruct (f i) eqn:Ef; [|reflexivity].
          destruct (F2 i) as (o & t & [Heq|Hin] & Hs & Hrange).
          - lia.
          - exact Ef.
          - injection Heq as <- <-. congruence.
          - apply Hafter in Hin. lia. }
      destruct (@runs_from_run r (mask f (pos + length r) post) pos Hne Hr)
        as (later' & Hruns' & Hlater' & _).
      { apply mask_boundary. exact Hpost. }
      rewrite Hruns'. f_equal. rewrite Hlater'.
      replace (tl (mask f (pos + length r) post))
        with (mask f (pos + length r + 1) (tl post)).
      * exact IHlater.
      * destruct post; simpl; [reflexivity|]. rewrite Nat.add_1_r. reflexivity.
Qed.

Lemma filter_negb_filter {A} (f : A -> bool) (l : list A) :
  filter f (filter (fun x => negb (f x)) l) = [].
Proof.
  apply filter_all_false. intros x Hx. apply filter_In in Hx.
  destruct Hx as [_ Hx]. destruct (f x); [discriminate|reflexivity].
Qed.

(** After the runs matched by a wildcard pattern were zeroed, no run of
    the file satisfies the pattern. *)
Lemma wildcard_rescan_finds_nothing (data : bytes) (pattern : str) (ci : bool) :
  let hits := map hit_of_run
                  (filter (fun run => satisfies pattern ci (snd run))
                          (extract_runs data)) in
  let file' := mask (coveredb (map (with_pattern pattern) hits)) 0 data in
  find_wildcard_matches file' pattern ci = Ok [].
Proof.
  intros hits file'. rewrite find_wildcard_matches_spec. f_equal.
  rewrite extract_runs_runs_from. unfold file'.
  rewrite (@runs_from_mask (satisfies pattern ci) _ (length data));
    [rewrite (filter_negb_filter (fun run => satisfies pattern ci (snd run)));
     reflexivity|reflexivity| |].
  - intros o t i Hin Hsel Hrange. apply coveredb_spec.
    exists (with_pattern pattern (hit_of_run (o, t))). split.
    + apply in_map. unfold hits. apply in_map. apply filter_In.
      rewrite extract_runs_runs_from. split; [exact Hin|exact Hsel].
    + unfold covers, with_pattern, hit_of_run, entry_offset, entry_bytes.
      simpl. rewrite length_map. exact Hrange.
  - intros i _ Hcov. apply coveredb_spec in Hcov.
    destruct Hcov as (e & He & Hi). apply in_map_iff in He.
    destruct He as (h & <- & Hh). unfold hits in Hh. apply in_map_iff in Hh.
    destruct Hh as ([o t] & <- & Hrun). apply filter_In in Hrun.
    rewrite extract_runs_runs_from in Hrun. destruct Hrun as [Hin Hsel].
    exists o, t. split; [exact Hin|]. split; [exact Hsel|].
    unfold covers, with_pattern, hit_of_run, entry_offset, entry_bytes in Hi.
    simpl in Hi. rewrite length_map in Hi. exact Hi.
Qed.

(** The claim of C9 fails for a pattern that is searched as the empty
    byte string, here a pattern made of one non-ASCII character, which
    [encode] drops: it is found at every offset before and after the
    patch.  It also fails for a pattern that holds the character of code
    0. *)
Lemma empty_or_zero_pattern_is_found_again :
  (let pattern := [ascii_of_nat 233] in
   let file' := fst (patch_file sample_order (bytes_of "ab") [pattern] "null"
                                (str_of "REMOVED") false) in
   pattern_matches sample_order file' pattern false
   = Ok [(0, pattern, []); (1, pattern, []); (2, pattern, [])])
  /\ (let pattern := [ascii_of_nat 0] in
      let file' := fst (patch_file sample_order (bytes_of "a" ++ [x00]) [pattern]
                                   "null" (str_of "REMOVED") false) in
      pattern_matches sample_order file' pattern false
      = Ok [(1, pattern, [x00])]).
Proof. vm_compute. split; reflexivity. Qed.

(** C9, amended.  Patching in null mode is idempotent with respect to
    matching for every wildcard pattern, and for every literal pattern
    none of whose searched byte strings is empty or holds a zero byte:
    for every buffer, [patch_file] with that one pattern succeeds, keeps
    the length of the file, and searching the patched file for the same
    pattern yields no match. *)
Theorem rescan_after_null_patch_finds_nothing
        (set_iter : list bytes -> list bytes) (Hset : set_order set_iter)
        (data : bytes) (pattern : str) (ci : bool) (placeholder : str)
        (Hpattern : is_wildcard pattern = true
                    \/ forall c, In c (searched pattern ci) ->
                                 c <> [] /\ ~ In x00 c) :
  exists file' count log,
    patch_file set_iter data [pattern] "null" placeholder ci
    = (file', Ok (count, log))
    /\ length file' = length data
    /\ pattern_matches set_iter file' pattern ci = Ok [].
Proof.
  destruct (is_wildcard pattern) eqn:Ew.
  - (* wildcard pattern *)
    set (hits := map hit_of_run
                     (filter (fun run => satisfies pattern ci (snd run))
                             (extract_runs data))).
    assert (Hhits : pattern_matches set_iter data pattern ci = Ok hits).
    { unfold pattern_matches. rewrite Ew. apply find_wildcard_matches_spec. }
    assert (Hbounds : forall h, In h hits ->
              hit_bytes h <> []
              /\ hit_offset h + length (hit_bytes h) <= length data).
    { intros h Hh. unfold hits in Hh. apply in_map_iff in Hh.
      destruct Hh as ([o t] & <- & Hrun). apply filter_In in Hrun.
      destruct Hrun as [Hin _]. rewrite extract_runs_runs_from in Hin.
      apply runs_from_bounds in Hin; [|simpl; lia].
      destruct Hin as (Hne & _ & Hhi).
      unfold hit_bytes, hit_offset, hit_of_run. simpl. rewrite length_map.
      split; [|exact Hhi]. destruct t; [congruence|discriminate]. }
    destruct (@patch_file_null set_iter data pattern ci placeholder hits Hhits)
      as [log Hpatch].
    { intros h Hh. apply Hbounds. exact Hh. }
    { intros Hne Hdata. destruct hits as [|h hits']; [congruence|].
      destruct (Hbounds h (or_introl eq_refl)) as [Hb Hfit].
      rewrite Hdata in Hfit. destruct (hit_bytes h); [congruence|].
      simpl in Hfit. lia. }
    eexists. exists (length hits), log. split; [exact Hpatch|].
    split; [apply length_mask|].
    unfold pattern_matches. rewrite Ew.
    apply wildcard_rescan_finds_nothing.
  - (* literal pattern *)
    destruct Hpattern as [Hw|Hc]; [discriminate|].
    set (hits := find_exact_matches set_iter data pattern ci).
    assert (Hhits : pattern_matches set_iter data pattern ci = Ok hits).
    { unfold pattern_matches. rewrite Ew. reflexivity. }
    assert (Hbounds : forall h, In h hits ->
              hit_bytes h <> []
              /\ hit_offset h + length (hit_bytes h) <= length data).
    { intros h Hh. apply (find_exact_matches_sound Hset) in Hh.
      destruct Hh as [Hcand Hocc]. split; [apply Hc; exact Hcand|].
      apply occurs_at_nth in Hocc. apply Hocc. }
    destruct (@patch_file_null set_iter data pattern ci placeholder hits Hhits)
      as [log Hpatch].
    { intros h Hh. apply Hbounds. exact Hh. }
    { intros Hne Hdata. destruct hits as [|h hits']; [congruence|].
      destruct (Hbounds h (or_introl eq_refl)) as [Hb Hfit].
      rewrite Hdata in Hfit. destruct (hit_bytes h); [congruence|].
      simpl in Hfit. lia. }
    eexists. exists (length hits), log. split; [exact Hpatch|].
    split; [apply length_mask|].
    unfold pattern_matches. rewrite Ew. f_equal.
    apply (literal_rescan_finds_nothing Hset). exact Hc.
Qed.

Lemma rescan_after_null_patch_finds_nothing_witness :
  exists file' count log,
    patch_file sample_order
               (bytes_of "foo" ++ [x00] ++ bytes_of "BadWord" ++ [x00]
                ++ bytes_of "BADWORD")
               [str_of "badword"] "null" (str_of "REMOVED") true
    = (file', Ok (count, log))
    /\ length file' = 19
    /\ pattern_matches sample_order file' (str_of "badword") true = Ok [].
Proof.
  apply (@rescan_after_null_patch_finds_nothing
           sample_order sample_order_ok
           (bytes_of "foo" ++ [x00] ++ bytes_of "BadWord" ++ [x00]
            ++ bytes_of "BADWORD")
           (str_of "badword") true (str_of "REMOVED")).
  right. intros c Hc. vm_compute in Hc.
  destruct Hc as [<-|[<-|[<-|[]]]]; (split; [discriminate|]);
    vm_compute; intuition discriminate.
Defined.

(* ================================================================== *)
(** * Further properties *)
(* ================================================================== *)

(** ** The list of runs *)

(** Induction over a buffer run by run: the buffer is empty, or starts
    with a byte that is not printable, or starts with a maximal run. *)
Lemma runs_block_ind (P : nat -> bytes -> list (nat * str) -> Prop) :
  (forall pos, P pos [] []) ->
  (forall pos b rest,
      printable b = false ->
      P (pos + 1) rest (runs_from (pos + 1) [] rest) ->
      P pos (b :: rest) (runs_from (pos + 1) [] rest)) ->
  (forall pos r post,
      r <> [] -> forallb printable r = true -> boundary post ->
      P (pos + length r + 1) (tl post)
        (runs_from (pos + length r + 1) [] (tl post)) ->
      P pos (r ++ post)
        ((pos, map chr r) :: runs_from (pos + length r + 1) [] (tl post))) ->
  forall data pos, P pos data (runs_from pos [] data).
Proof.
  intros Hnil Hskip Hrun data.
  remember (length data) as n eqn:Hn.
  assert (Hle : length data <= n) by lia. clear Hn.
  revert data Hle. induction n as [|n IH]; intros data Hle pos.
  { destruct data; [apply Hnil|simpl in Hle; lia]. }
  destruct (printable_span data) as (r & post & Hsplit & Hr & Hpost).
  subst data. rewrite length_app in Hle.
  destruct r as [|b0 r0] eqn:Er.
  - simpl. destruct Hpost as [->|(b & post' & -> & Hb)]; [apply Hnil|].
    simpl. rewrite Hb. simpl. rewrite <- (Nat.add_1_r pos).
    apply Hskip; [exact Hb|]. apply IH. simpl in Hle. lia.
  - rewrite <- Er in *.
    assert (Hne : r <> []) by (rewrite Er; discriminate).
    destruct (@runs_from_run r post pos Hne Hr Hpost) as (later & Heq & Hlater & _).
    rewrite Heq, Hlater. apply Hrun; try assumption.
    apply IH. rewrite Er in Hle. simpl in Hle.
    destruct post; simpl in *; lia.
Qed.

(** Every run that the scan lists is a maximal run of printable bytes of
    the buffer, with the characters of its bytes as text. *)
Lemma runs_from_sound (data : bytes) (pos : nat) :
  forall before,
    length before = pos ->
    (before = [] \/ exists pre' b, before = pre' ++ [b] /\ printable b = false) ->
    forall o t, In (o, t) (runs_from pos [] data) ->
                exists r, t = map chr r /\ is_run (before ++ data) o r.
Proof.
  apply (runs_block_ind
           (fun pos data runs =>
              forall before,
                length before = pos ->
                (before = [] \/ exists pre' b, before = pre' ++ [b] /\ printable b = false) ->
                forall o t, In (o, t) runs ->
                            exists r, t = map chr r /\ is_run (before ++ data) o r)).
  - intros pos' before _ _ o t [].
  - intros pos' b rest Hb IH before Hlen Hbefore o t Hin.
    destruct (IH (before ++ [b])) with (o := o) (t := t) as (r & Ht & Hrun).
    + rewrite length_app. simpl. lia.
    + right. exists before, b. auto.
    + exact Hin.
    + exists r. split; [exact Ht|]. rewrite <- app_assoc in Hrun. exact Hrun.
  - intros pos' r post Hne Hr Hpost IH before Hlen Hbefore o t [Heq|Hin].
    + injection Heq as <- <-. exists r. split; [reflexivity|].
      split; [exact Hne|]. split; [exact Hr|].
      exists before, post. auto.
    + destruct Hpost as [->|(b & post' & -> & Hb)]; [destruct Hin|].
      simpl in Hin, IH.
      destruct (IH (before ++ r ++ [b])) with (o := o) (t := t)
        as (r' & Ht & Hrun).
      * rewrite !length_app. simpl. lia.
      * right. exists (before ++ r), b. rewrite <- app_assoc. auto.
      * exact Hin.
      * exists r'. split; [exact Ht|].
        rewrite <- !app_assoc in Hrun. simpl in Hrun. exact Hrun.
Qed.

(** X1.  The runs extracted from a buffer are exactly its maximal runs
    of printable bytes: a pair is listed if and only if its text is the
    characters of a maximal run and its offset the offset of that run. *)
Theorem extracted_runs_are_the_maximal_runs (data : bytes) (o : nat) (t : str) :
  In (o, t) (extract_runs data)
  <-> exists r, t = map chr r /\ is_run data o r.
Proof.
  split.
  - intros Hin. rewrite extract_runs_runs_from in Hin.
    apply (@runs_from_sound data 0 [] eq_refl (or_introl eq_refl)) in Hin.
    exact Hin.
  - intros (r & -> & Hrun).
    destruct (extract_runs_at_run Hrun) as (before & later & -> & _).
    apply in_or_app. right. left. reflexivity.
Qed.

Lemma runs_from_sorted (data : bytes) (pos : nat) :
  StronglySorted run_before (runs_from pos [] data).
Proof.
  apply (runs_block_ind (fun _ _ runs => StronglySorted run_before runs)).
  - intros pos'. constructor.
  - intros pos' b rest _ IH. exact IH.
  - intros pos' r post _ _ _ IH. constructor; [exact IH|].
    apply Forall_forall. intros [o t] Hin.
    apply runs_from_bounds in Hin; [|simpl; lia].
    unfold run_before. simpl. rewrite length_map. simpl in Hin. lia.
Qed.

(** X2.  The runs are listed in increasing order of offset and are
    separated: each run ends at least one byte before every later run
    starts; every run has at least one character and lies inside the
    buffer. *)
Theorem extracted_runs_are_ordered_and_separated (data : bytes) :
  StronglySorted run_before (extract_runs data)
  /\ forall o t, In (o, t) (extract_runs data) ->
                 t <> [] /\ o + length t <= length data.
Proof.
  rewrite extract_runs_runs_from. split; [apply runs_from_sorted|].
  intros o t Hin. apply runs_from_bounds in Hin; [|simpl; lia].
  simpl in Hin. tauto.
Qed.

Lemma pending_nil (pos : nat) (cur : str) : pending pos cur = [] <-> cur = [].
Proof. unfold pending. destruct cur; simpl; split; congruence. Qed.

Lemma runs_from_nil (data : bytes) (pos : nat) (cur : str) :
  runs_from pos cur data = []
  <-> cur = [] /\ forallb (fun b => negb (printable b)) data = true.
Proof.
  revert pos cur. induction data as [|b rest IH]; intros pos cur; simpl.
  - rewrite pending_nil. tauto.
  - destruct (printable b); simpl.
    + rewrite IH. split.
      * intros [H _]. apply app_eq_nil in H. destruct H; discriminate.
      * intros [_ H]. discriminate.
    + split.
      * intros H. apply app_eq_nil in H. destruct H as [Hp Hr].
        apply pending_nil in Hp. apply IH in Hr. tauto.
      * intros [-> H]. simpl. apply IH. auto.
Qed.

(** X3.  No run is extracted if and only if the buffer holds no
    printable byte; a wildcard search of such a buffer, the empty buffer
    included, finds nothing whatever the pattern. *)
Theorem no_run_without_printable_byte (data : bytes) :
  (extract_runs data = []
   <-> forallb (fun b => negb (printable b)) data = true)
  /\ (forallb (fun b => negb (printable b)) data = true ->
      forall pattern ci, find_wildcard_matches data pattern ci = Ok []).
Proof.
  assert (H : extract_runs data = []
              <-> forallb (fun b => negb (printable b)) data = true).
  { rewrite extract_runs_runs_from, runs_from_nil. tauto. }
  split; [exact H|].
  intros Hnp pattern ci. rewrite find_wildcard_matches_spec.
  apply H in Hnp. rewrite Hnp. reflexivity.
Qed.

Lemma no_run_without_printable_byte_witness :
  find_wildcard_matches [x00; x01; x7f; xff] (str_of "*") true = Ok [].
Proof.
  destruct (no_run_without_printable_byte [x00; x01; x7f; xff]) as [_ H].
  apply H. reflexivity.
Defined.

Lemma extracted_runs_are_ordered_and_separated_witness :
  StronglySorted run_before
                 (extract_runs (bytes_of "a" ++ [x00; x01] ++ bytes_of "bc"))
  /\ 3 + length (str_of "bc")
     <= length (bytes_of "a" ++ [x00; x01] ++ bytes_of "bc").
Proof.
  destruct (extracted_runs_are_ordered_and_separated
              (bytes_of "a" ++ [x00; x01] ++ bytes_of "bc")) as [Hs H].
  split; [exact Hs|].
  apply (H 3 (str_of "bc")). vm_compute. right. left. reflexivity.
Defined.

(** ** What the searches return *)

Lemma pattern_matches_found (set_iter : list bytes -> list bytes)
      (data : bytes) (pattern : str) (ci : bool) :
  pattern_matches set_iter data pattern ci
  = Ok (found_hits set_iter data pattern ci).
Proof.
  unfold pattern_matches, found_hits. destruct (is_wildcard pattern);
    [apply find_wildcard_matches_spec|reflexivity].
Qed.

Lemma collect_matches_found (set_iter : list bytes -> list bytes)
      (data : bytes) (patterns : list str) (ci : bool) (acc : list entry) :
  collect_matches set_iter data patterns ci acc
  = Ok (acc ++ all_found set_iter data patterns ci).
Proof.
  revert acc. induction patterns as [|pattern rest IH]; intros acc; simpl.
  - rewrite app_nil_r. reflexivity.
  - rewrite pattern_matches_found. simpl. rewrite IH, <- app_assoc.
    reflexivity.
Qed.

Lemma is_run_occurs (data : bytes) (o : nat) (r : bytes) :
  is_run data o r -> occurs_at data r o.
Proof.
  intros (_ & _ & pre & post & Hd & Hl & _). exists pre, post. auto.
Qed.

(** Whatever the iteration order of the set, a match reports bytes that
    are in the buffer at its offset. *)
Lemma found_hits_occur (set_iter : list bytes -> list bytes)
      (data : bytes) (pattern : str) (ci : bool) (h : hit) :
  In h (found_hits set_iter data pattern ci) ->
  occurs_at data (hit_bytes h) (hit_offset h).
Proof.
  unfold found_hits. destruct (is_wildcard pattern).
  - intros Hin. apply in_map_iff in Hin. destruct Hin as ([o t] & <- & Hrun).
    apply filter_In in Hrun. destruct Hrun as [Hrun _].
    rewrite extract_runs_runs_from in Hrun.
    apply (@runs_from_sound data 0 [] eq_refl (or_introl eq_refl)) in Hrun.
    destruct Hrun as (r & -> & Hrun).
    unfold hit_bytes, hit_offset, hit_of_run. simpl. rewrite encode_chr.
    apply is_run_occurs. exact Hrun.
  - unfold find_exact_matches. destruct ci.
    + intros Hin. apply in_flat_map in Hin. destruct Hin as (c & _ & Hin).
      apply in_map_iff in Hin. destruct Hin as (i & <- & Hi).
      apply find_all_in. exact Hi.
    + intros Hin. apply in_map_iff in Hin. destruct Hin as (i & <- & Hi).
      apply find_all_in. exact Hi.
Qed.

Lemma found_hits_fit (set_iter : list bytes -> list bytes)
      (data : bytes) (pattern : str) (ci : bool) (h : hit) :
  In h (found_hits set_iter data pattern ci) ->
  hit_offset h + length (hit_bytes h) <= length data.
Proof.
  intros Hin. apply found_hits_occur in Hin. apply occurs_at_nth in Hin.
  apply Hin.
Qed.

Lemma all_found_fit (set_iter : list bytes -> list bytes)
      (data : bytes) (patterns : list str) (ci : bool) (e : entry) :
  In e (all_found set_iter data patterns ci) ->
  entry_offset e + length (entry_bytes e) <= length data.
Proof.
  unfold all_found. intros Hin. apply in_flat_map in Hin.
  destruct Hin as (pattern & _ & Hin). apply in_map_iff in Hin.
  destruct Hin as (h & <- & Hh). apply found_hits_fit in Hh. exact Hh.
Qed.

Lemma filter_all_true {A} (f : A -> bool) (l : list A) :
  forallb f l = true -> filter f l = l.
Proof.
  induction l as [|x l IH]; simpl; [reflexivity|].
  intros H. apply andb_true_iff in H. destruct H as [Hx Hl].
  rewrite Hx, (IH Hl). reflexivity.
Qed.

Lemma filter_twice {A} (f : A -> bool) (l : list A) :
  filter f (filter f l) = filter f l.
Proof.
  apply filter_all_true. apply forallb_forall. intros x Hx.
  apply filter_In in Hx. apply Hx.
Qed.

(** Decoding what was encoded gives the ASCII characters back. *)
Lemma decode_encode_ignore (s : str) :
  decode_ignore (encode_ignore s) = filter is_ascii s.
Proof.
  unfold decode_ignore, encode_ignore. rewrite map_map.
  rewrite (map_ext _ (fun c => c))
    by (intros c; unfold chr; apply ascii_of_byte_of_ascii).
  rewrite map_id. apply filter_twice.
Qed.

Lemma encode_decode_encode (s : str) :
  encode_ignore (decode_ignore (encode_ignore s)) = encode_ignore s.
Proof.
  rewrite decode_encode_ignore. unfold encode_ignore.
  rewrite filter_twice. reflexivity.
Qed.

Lemma variant_is_encoded (pattern : str) (ci : bool) (c : bytes) :
  In c (searched pattern ci) -> exists s, c = encode_ignore s.
Proof.
  unfold searched, case_variants. destruct ci.
  - intros [<-|[<-|[<-|[]]]]; eexists; reflexivity.
  - intros [<-|[]]. eexists; reflexivity.
Qed.

(** X4.  The search chosen for a pattern never raises, and each of its
    matches is sound: the matched bytes are the bytes found in the buffer
    at the reported offset, the match lies inside the buffer, and the
    matched bytes are the ASCII encoding of the matched text. *)
Theorem every_match_is_in_the_buffer
        (set_iter : list bytes -> list bytes) (Hset : set_order set_iter)
        (data : bytes) (pattern : str) (ci : bool) :
  exists hits,
    pattern_matches set_iter data pattern ci = Ok hits
    /\ forall h, In h hits ->
                 occurs_at data (hit_bytes h) (hit_offset h)
                 /\ hit_offset h + length (hit_bytes h) <= length data
                 /\ hit_bytes h = encode_ignore (hit_text h).
Proof.
  exists (found_hits set_iter data pattern ci).
  split; [apply pattern_matches_found|].
  intros h Hin. split; [eapply found_hits_occur; exact Hin|].
  split; [eapply found_hits_fit; exact Hin|].
  unfold found_hits in Hin. destruct (is_wildcard pattern) eqn:Ew.
  - apply in_map_iff in Hin. destruct Hin as ([o t] & <- & Hrun).
    apply filter_In in Hrun. destruct Hrun as [Hrun _].
    rewrite extract_runs_runs_from in Hrun.
    apply runs_from_ascii in Hrun; [|reflexivity].
    unfold hit_bytes, hit_text, hit_of_run, encode_ignore. simpl.
    rewrite filter_all_true by exact Hrun. reflexivity.
  - apply (find_exact_matches_sound Hset) in Hin as Hs.
    destruct Hs as [Hcand _].
    apply variant_is_encoded in Hcand. destruct Hcand as [s Hs].
    destruct ci.
    + apply (find_exact_matches_ci_in Hset) in Hin.
      destruct Hin as (_ & _ & Ht). rewrite Ht, Hs.
      symmetry. apply encode_decode_encode.
    + unfold find_exact_matches in Hin. apply in_map_iff in Hin.
      destruct Hin as (i & <- & _). reflexivity.
Qed.

Lemma every_match_is_in_the_buffer_witness :
  exists hits,
    pattern_matches sample_order (bytes_of "xxTeSt test") (str_of "TEST") true
    = Ok hits
    /\ forall h, In h hits ->
                 occurs_at (bytes_of "xxTeSt test") (hit_bytes h) (hit_offset h)
                 /\ hit_offset h + length (hit_bytes h) <= 11
                 /\ hit_bytes h = encode_ignore (hit_text h).
Proof.
  exact (@every_match_is_in_the_buffer sample_order sample_order_ok
           (bytes_of "xxTeSt test") (str_of "TEST") true).
Defined.

(** ** The order in which the matches are applied *)

Lemma insert_desc_sorted (x : entry) (l : list entry) :
  Sorted offset_ge l -> Sorted offset_ge (insert_desc x l).
Proof.
  induction 1 as [|y l Hl IH Hhd]; simpl.
  - constructor; constructor.
  - destruct (entry_offset x <? entry_offset y) eqn:E.
    + apply Nat.ltb_lt in E. constructor; [exact IH|].
      destruct l as [|z l]; simpl.
      * constructor. unfold offset_ge. lia.
      * destruct (entry_offset x <? entry_offset z).
        -- constructor. inversion Hhd. assumption.
        -- constructor. unfold offset_ge. lia.
    + apply Nat.ltb_ge in E. constructor.
      * constructor; assumption.
      * constructor. exact E.
Qed.

Lemma sort_desc_sorted (l : list entry) : Sorted offset_ge (sort_desc l).
Proof.
  induction l as [|x l IH]; simpl; [constructor|].
  apply insert_desc_sorted. exact IH.
Qed.

Lemma insert_desc_filter (k : nat) (x : entry) (l : list entry) :
  filter (fun e => entry_offset e =? k) (insert_desc x l)
  = filter (fun e => entry_offset e =? k) (x :: l).
Proof.
  induction l as [|y l IH]; [reflexivity|]. simpl.
  destruct (entry_offset x <? entry_offset y) eqn:E; [|reflexivity].
  apply Nat.ltb_lt in E. simpl. rewrite IH. simpl.
  destruct (entry_offset x =? k) eqn:Ex; [|reflexivity].
  apply Nat.eqb_eq in Ex.
  replace (entry_offset y =? k) with false; [reflexivity|].
  symmetry. apply Nat.eqb_neq. lia.
Qed.

(** X5.  The sort of [all_matches] keeps the matches, none lost and none
    added, puts them in descending order of offset, and is stable: the
    matches at one offset stay in the order in which they were found. *)
Theorem matches_are_sorted_descending_and_stably (l : list entry) :
  Permutation (sort_desc l) l
  /\ StronglySorted offset_ge (sort_desc l)
  /\ forall k, filter (fun e => entry_offset e =? k) (sort_desc l)
               = filter (fun e => entry_offset e =? k) l.
Proof.
  split; [apply sort_desc_perm|]. split.
  - apply Sorted_StronglySorted; [|apply sort_desc_sorted].
    intros a b c Hab Hbc. unfold offset_ge in *. lia.
  - intros k. induction l as [|x l IH]; [reflexivity|].
    simpl. rewrite insert_desc_filter. simpl. rewrite IH. reflexivity.
Qed.

(** ** What [patch_file] returns and writes *)

Lemma make_repl_usable (mode : string) (placeholder : str) (matched_bytes : bytes) :
  usable_mode mode placeholder ->
  exists repl, make_repl mode placeholder matched_bytes = Ok repl
               /\ length repl = length matched_bytes.
Proof.
  intros [->|[-> Hne]].
  - rewrite make_repl_null. eexists. split; [reflexivity|apply repeat_length].
  - destruct (make_repl_placeholder matched_bytes Hne) as [Heq Hlen].
    eexists. split; [exact Heq|exact Hlen].
Qed.

(** With a usable mode, on matches that lie inside the map, the loop
    raises nothing, counts every match and logs every match in the order
    in which it processes them. *)
Lemma patch_loop_ok (mode : string) (placeholder : str)
      (entries : list entry) (st : patch_state) :
  usable_mode mode placeholder ->
  (forall e, In e entries ->
             entry_offset e + length (entry_bytes e) <= length (mm st)) ->
  exists st',
    patch_loop mode placeholder entries st = (st', None)
    /\ length (mm st') = length (mm st)
    /\ total_patches st' = total_patches st + length entries
    /\ log_entries st' = log_entries st ++ map log_of_entry entries.
Proof.
  intros Hmode. revert st.
  induction entries as [|[[[start_idx matched_str] matched_bytes] pat] rest IH];
    intros st Hfit.
  - exists st. simpl. rewrite app_nil_r. repeat split; lia.
  - cbn [patch_loop].
    destruct (make_repl_usable matched_bytes Hmode) as (repl & Hrepl & Hlen).
    rewrite Hrepl.
    pose proof (Hfit _ (or_introl eq_refl)) as Hhead.
    unfold entry_offset, entry_bytes in Hhead. simpl in Hhead.
    destruct (@mmap_setslice_fits (mm st) start_idx repl) as [m' Hm'];
      [lia|].
    rewrite Hlen in Hm'. rewrite Hm'.
    pose proof (@mmap_setslice_length _ _ _ _ _ Hm') as Hlen'.
    match goal with
    | |- context [patch_loop _ _ rest ?s] =>
        destruct (IH s) as (st' & Hloop & Hl & Hcount & Hlog)
    end.
    { intros e He. cbn [mm]. rewrite Hlen'. apply Hfit. right. exact He. }
    exists st'. split; [exact Hloop|]. cbn [mm total_patches log_entries] in *.
    split; [lia|]. split; [simpl; lia|].
    rewrite Hlog, <- app_assoc. reflexivity.
Qed.

Lemma patch_file_unfold (set_iter : list bytes -> list bytes) (file : bytes)
      (patterns : list str) (mode : string) (placeholder : str) (ci : bool) :
  patch_file set_iter file patterns mode placeholder ci
  = let all_matches := sort_desc (all_found set_iter file patterns ci) in
    if is_empty all_matches then (file, Ok (0, []))
    else if is_empty file then (file, Raise ValueError_mmap_empty)
    else
      let (st, err) :=
        patch_loop mode placeholder all_matches (mk_patch file 0 []) in
      match err with
      | Some e => (mm st, Raise e)
      | None => (mm st, Ok (total_patches st, log_entries st))
      end.
Proof.
  unfold patch_file. rewrite collect_matches_found. reflexivity.
Qed.

Lemma sorted_entries_fit (set_iter : list bytes -> list bytes)
      (file : bytes) (patterns : list str) (ci : bool) (e : entry) :
  In e (sort_desc (all_found set_iter file patterns ci)) ->
  entry_offset e + length (entry_bytes e) <= length file.
Proof.
  intros He. apply (proj1 (sort_desc_in _ _)) in He.
  eapply all_found_fit. exact He.
Qed.

Lemma is_empty_false {A} (l : list A) : l <> [] -> is_empty l = false.
Proof. destruct l; [congruence|reflexivity]. Qed.

(** X6.  With one of the two modes, a non-empty placeholder in
    placeholder mode, and a file that is not empty, [patch_file] never
    raises, whatever the patterns: no slice assignment is refused.  It
    returns the number of matches found, every pattern and overlapping
    matches counted, with one log entry for each match in descending
    order of offset, and the file keeps its length. *)
Theorem patch_file_succeeds_and_counts_every_match
        (set_iter : list bytes -> list bytes) (file : bytes)
        (patterns : list str) (mode : string) (placeholder : str) (ci : bool)
        (Hmode : usable_mode mode placeholder)
        (Hfile : file <> []) :
  let all_matches := all_found set_iter file patterns ci in
  exists file',
    patch_file set_iter file patterns mode placeholder ci
    = (file', Ok (length all_matches,
                  map log_of_entry (sort_desc all_matches)))
    /\ length file' = length file.
Proof.
  intros all_matches. rewrite patch_file_unfold. cbv zeta. fold all_matches.
  destruct (is_empty (sort_desc all_matches)) eqn:Ee.
  - apply is_empty_true in Ee. rewrite Ee.
    pose proof (Permutation_length (sort_desc_perm all_matches)) as Hl.
    rewrite Ee in Hl. simpl in Hl. rewrite <- Hl.
    exists file. auto.
  - rewrite (is_empty_false Hfile).
    destruct (@patch_loop_ok mode placeholder (sort_desc all_matches)
                             (mk_patch file 0 []) Hmode)
      as (st' & Hloop & Hlen & Hcount & Hlog).
    { intros e He. cbn [mm]. eapply sorted_entries_fit. exact He. }
    rewrite Hloop. exists (mm st'). cbn [mm total_patches log_entries] in *.
    rewrite Hcount, Hlog.
    rewrite (Permutation_length (sort_desc_perm all_matches)).
    split; [reflexivity|exact Hlen].
Qed.

Lemma patch_file_succeeds_and_counts_every_match_witness :
  exists file',
    patch_file sample_order (bytes_of "abcabc") [str_of "abc"; str_of "b*"; str_of "ca"]
               "placeholder" (str_of "-") false
    = (file', Ok (3, [mk_log (str_of "abc") (str_of "abc") 3;
                      mk_log (str_of "ca") (str_of "ca") 2;
                      mk_log (str_of "abc") (str_of "abc") 0]))
    /\ length file' = 6.
Proof.
  apply (@patch_file_succeeds_and_counts_every_match
           sample_order (bytes_of "abcabc")
           [str_of "abc"; str_of "b*"; str_of "ca"]
           "placeholder" (str_of "-") false).
  - right. split; [reflexivity|discriminate].
  - discriminate.
Defined.

(** X7.  In null mode, on a file that is not empty, [patch_file] leaves
    exactly this file: a zero byte at every offset that lies in the range
    of a match of one of the patterns, and the original byte everywhere
    else. *)
Theorem null_mode_zeroes_exactly_the_matched_ranges
        (set_iter : list bytes -> list bytes) (file : bytes)
        (patterns : list str) (placeholder : str) (ci : bool)
        (Hfile : file <> []) :
  let all_matches := all_found set_iter file patterns ci in
  let file' := fst (patch_file set_iter file patterns "null" placeholder ci) in
  file' = mask (coveredb all_matches) 0 file
  /\ forall i b, nth_error file i = Some b ->
                 nth_error file' i
                 = Some (if coveredb all_matches i then x00 else b).
Proof.
  intros all_matches file'.
  assert (Hmask : file' = mask (coveredb all_matches) 0 file).
  { unfold file'. rewrite patch_file_unfold. cbv zeta. fold all_matches.
    destruct (is_empty (sort_desc all_matches)) eqn:Ee.
    - apply is_empty_true in Ee. simpl. symmetry. apply mask_none.
      intros i _. rewrite (coveredb_perm i (Permutation_sym (sort_desc_perm all_matches))).
      rewrite Ee. reflexivity.
    - rewrite (is_empty_false Hfile).
      destruct (@patch_loop_null placeholder (sort_desc all_matches)
                                 (mk_patch file 0 []))
        as (st' & Hloop & Hmm & _).
      { intros e He. cbn [mm]. eapply sorted_entries_fit. exact He. }
      rewrite Hloop. simpl. rewrite Hmm. cbn [mm]. apply mask_ext.
      intros i _. apply coveredb_perm, sort_desc_perm. }
  split; [exact Hmask|].
  intros i b Hb. rewrite Hmask, nth_error_mask, Hb. reflexivity.
Qed.

Lemma null_mode_zeroes_exactly_the_matched_ranges_witness :
  fst (patch_file sample_order (bytes_of "xABCx") [str_of "AB"; str_of "BC"]
                  "null" (str_of "REMOVED") false)
  = [byte_of_ascii "x"; x00; x00; x00; byte_of_ascii "x"].
Proof.
  destruct (@null_mode_zeroes_exactly_the_matched_ranges
              sample_order (bytes_of "xABCx") [str_of "AB"; str_of "BC"]
              (str_of "REMOVED") false) as [H _].
  - discriminate.
  - rewrite H. vm_compute. reflexivity.
Defined.

(** X8.  When the patch loop ends without an exception, each byte of the
    map is the byte that the last match processed among those covering
    its offset wrote there, and the original byte when no match covers
    it: where matches overlap, the one applied later wins. *)
Theorem overlapping_matches_last_applied_wins
        (mode : string) (placeholder : str) (entries : list entry)
        (st st' : patch_state)
        (Hloop : patch_loop mode placeholder entries st = (st', None))
        (i : nat) :
  nth_error (mm st') i
  = match last_cover entries i with
    | Some e =>
        match make_repl mode placeholder (entry_bytes e) with
        | Ok repl => nth_error repl (i - entry_offset e)
        | Raise _ => None
        end
    | None => nth_error (mm st) i
    end.
Proof.
  revert st Hloop.
  induction entries as [|[[[start_idx matched_str] matched_bytes] pat] rest IH];
    intros st Hloop.
  - simpl in Hloop. injection Hloop as <-. reflexivity.
  - cbn [patch_loop] in Hloop.
    destruct (make_repl mode placeholder matched_bytes) as [repl|err] eqn:Hrepl;
      [|discriminate].
    destruct (mmap_setslice (mm st) start_idx (start_idx + length matched_bytes) repl)
      as [m'|err] eqn:Hm'; [|discriminate].
    specialize (IH _ Hloop). cbn [mm] in IH.
    cbn [last_cover]. destruct (last_cover rest i) as [e'|]; [exact IH|].
    rewrite IH.
    change (entry_offset (start_idx, matched_str, matched_bytes, pat))
      with start_idx.
    change (entry_bytes (start_idx, matched_str, matched_bytes, pat))
      with matched_bytes.
    pose proof (@make_repl_length _ _ _ _ Hrepl) as Hlen.
    destruct (in_slice start_idx (length matched_bytes) i) eqn:Ein.
    + apply in_slice_spec in Ein. cbv beta iota.
      change (entry_offset (start_idx, matched_str, matched_bytes, pat))
        with start_idx.
      change (entry_bytes (start_idx, matched_str, matched_bytes, pat))
        with matched_bytes.
      rewrite Hrepl.
      rewrite <- Hlen in Hm', Ein.
      apply (@mmap_setslice_inside (mm st) start_idx repl m' i Hm' Ein).
    + apply (@mmap_setslice_outside _ _ _ _ _ i Hm').
      intros Hin. apply in_slice_spec in Hin. congruence.
Qed.

Lemma overlapping_matches_last_applied_wins_witness :
  nth_error (mm (fst (patch_loop "placeholder" (str_of "xy")
                        [(2, str_of "cde", bytes_of "cde", str_of "cde");
                         (1, str_of "bc", bytes_of "bc", str_of "bc")]
                        (mk_patch (bytes_of "abcdef") 0 [])))) 2
  = Some (byte_of_ascii "y").
Proof.
  rewrite (@overlapping_matches_last_applied_wins
             "placeholder" (str_of "xy")
             [(2, str_of "cde", bytes_of "cde", str_of "cde");
              (1, str_of "bc", bytes_of "bc", str_of "bc")]
             (mk_patch (bytes_of "abcdef") 0 [])
             (fst (patch_loop "placeholder" (str_of "xy")
                        [(2, str_of "cde", bytes_of "cde", str_of "cde");
                         (1, str_of "bc", bytes_of "bc", str_of "bc")]
                        (mk_patch (bytes_of "abcdef") 0 [])))).
  - reflexivity.
  - reflexivity.
Defined.

(** ** The placeholder bytes *)

Lemma nth_error_str_repeat (s : str) (m k : nat) :
  s <> [] -> k < m * length s ->
  nth_error (str_repeat s m) k = nth_error s (k mod length s).
Proof.
  intros Hne. unfold str_repeat.
  assert (Hlen : length s <> 0) by (destruct s; simpl; congruence).
  revert k. induction m as [|m IH]; intros k Hk; simpl in *; [lia|].
  destruct (Nat.lt_ge_cases k (length s)) as [Hlt|Hge].
  - rewrite nth_error_app1 by exact Hlt.
    rewrite Nat.mod_small by exact Hlt. reflexivity.
  - rewrite nth_error_app2 by exact Hge. rewrite IH by lia.
    f_equal.
    replace k with ((k - length s) + 1 * length s) at 2 by lia.
    rewrite Nat.Div0.mod_add. reflexivity.
Qed.

Lemma forallb_str_repeat (f : ascii -> bool) (s : str) (m : nat) :
  forallb f s = true -> forallb f (str_repeat s m) = true.
Proof.
  intros Hs. unfold str_repeat. induction m as [|m IH]; simpl; [reflexivity|].
  rewrite forallb_app, Hs, IH. reflexivity.
Qed.

Lemma forallb_firstn {A} (f : A -> bool) (n : nat) (l : list A) :
  forallb f l = true -> forallb f (firstn n l) = true.
Proof.
  revert n. induction l as [|x l IH]; intros [|n]; simpl; try reflexivity.
  intros H. apply andb_true_iff in H. destruct H as [Hx Hl].
  rewrite Hx, (IH n Hl). reflexivity.
Qed.

(** X9.  With a non-empty placeholder of ASCII characters, the
    replacement of a match is the placeholder written round and round:
    its byte [k] is character [k mod len(placeholder)] of the
    placeholder, and no zero byte is added. *)
Theorem ascii_placeholder_is_written_cyclically
        (placeholder : str) (matched_bytes : bytes)
        (Hne : placeholder <> [])
        (Hascii : forallb is_ascii placeholder = true) :
  exists repl,
    make_repl "placeholder" placeholder matched_bytes = Ok repl
    /\ length repl = length matched_bytes
    /\ forall k, k < length matched_bytes ->
                 nth_error repl k
                 = option_map byte_of_ascii
                              (nth_error placeholder (k mod length placeholder)).
Proof.
  destruct (make_repl_placeholder matched_bytes Hne) as [Heq Hlen].
  cbv zeta in Heq, Hlen.
  set (n := length matched_bytes) in *.
  set (copies := str_repeat placeholder (n / length placeholder + 1)) in *.
  assert (Hcover : n <= length copies) by (apply repeat_covers; exact Hne).
  assert (Henc : encode_ignore (firstn n copies)
                 = map byte_of_ascii (firstn n copies)).
  { unfold encode_ignore. rewrite filter_all_true; [reflexivity|].
    apply forallb_firstn, forallb_str_repeat. exact Hascii. }
  rewrite Henc in Heq, Hlen.
  assert (Hn : length (map byte_of_ascii (firstn n copies)) = n).
  { rewrite length_map, length_firstn. lia. }
  rewrite Hn, Nat.sub_diag in Heq, Hlen. simpl repeat in Heq, Hlen.
  rewrite app_nil_r in Heq, Hlen.
  rewrite firstn_all2 in Heq, Hlen by lia.
  eexists. split; [exact Heq|]. split; [exact Hn|].
  intros k Hk. rewrite nth_error_map, nth_error_firstn.
  apply Nat.ltb_lt in Hk as Hkb. rewrite Hkb. f_equal.
  apply nth_error_str_repeat; [exact Hne|].
  unfold copies in Hcover. rewrite length_str_repeat in Hcover. lia.
Qed.

Lemma ascii_placeholder_is_written_cyclically_witness :
  exists repl,
    make_repl "placeholder" (str_of "REMOVED") (bytes_of "0123456789") = Ok repl
    /\ length repl = 10
    /\ nth_error repl 8 = Some (byte_of_ascii "E").
Proof.
  destruct (@ascii_placeholder_is_written_cyclically
              (str_of "REMOVED") (bytes_of "0123456789"))
    as (repl & Heq & Hlen & Hnth).
  - discriminate.
  - reflexivity.
  - exists repl. split; [exact Heq|]. split; [exact Hlen|].
    rewrite Hnth by (simpl; lia). reflexivity.
Defined.

(** ** The patterns box *)

Lemma lstrip_split (s : str) :
  exists ws, s = ws ++ lstrip s /\ forallb is_space ws = true.
Proof.
  induction s as [|c s (ws & Hs & Hws)]; simpl.
  - exists []. auto.
  - destruct (is_space c) eqn:Ec.
    + exists (c :: ws). simpl. rewrite Ec, Hws, <- Hs. auto.
    + exists []. auto.
Qed.

Lemma lstrip_head (s : str) : starts_clean (lstrip s).
Proof.
  induction s as [|c s IH]; simpl; [exact I|].
  destruct (is_space c) eqn:Ec; [exact IH|]. simpl. exact Ec.
Qed.

Lemma lstrip_id (s : str) : starts_clean s -> lstrip s = s.
Proof. destruct s as [|c s]; simpl; [reflexivity|]. intros ->. reflexivity. Qed.

Lemma forallb_rev {A} (f : A -> bool) (l : list A) :
  forallb f l = true -> forallb f (rev l) = true.
Proof.
  rewrite !forallb_forall. intros H x Hx. apply H. apply in_rev. exact Hx.
Qed.

Lemma rstrip_split (s : str) :
  exists ws, s = rstrip s ++ ws /\ forallb is_space ws = true.
Proof.
  destruct (lstrip_split (rev s)) as (ws & Hs & Hws).
  exists (rev ws). split; [|apply forallb_rev; exact Hws].
  unfold rstrip. rewrite <- rev_app_distr, <- Hs, rev_involutive. reflexivity.
Qed.

Lemma strip_split (s : str) :
  exists ws1 ws2, s = ws1 ++ strip s ++ ws2
                  /\ forallb is_space ws1 = true
                  /\ forallb is_space ws2 = true.
Proof.
  destruct (lstrip_split s) as (ws1 & Hs & Hws1).
  destruct (rstrip_split (lstrip s)) as (ws2 & Hl & Hws2).
  exists ws1, ws2. unfold strip. rewrite <- Hl. auto.
Qed.

Lemma strip_trimmed (s : str) : trimmed (strip s).
Proof.
  split.
  - pose proof (lstrip_head s) as Hh.
    destruct (rstrip_split (lstrip s)) as (ws & Hl & _).
    unfold strip. destruct (rstrip (lstrip s)) as [|c t]; [exact I|].
    rewrite Hl in Hh. exact Hh.
  - unfold strip, rstrip. rewrite rev_involutive. apply lstrip_head.
Qed.

Lemma trimmed_strip (p : str) : trimmed p -> strip p = p.
Proof.
  intros [Hh Hl]. unfold strip, rstrip.
  rewrite (@lstrip_id p Hh), (@lstrip_id (rev p) Hl). apply rev_involutive.
Qed.

Lemma strip_in (s : str) (c : ascii) : In c (strip s) -> In c s.
Proof.
  destruct (strip_split s) as (ws1 & ws2 & Hs & _). intros Hin.
  rewrite Hs. apply in_or_app. right. apply in_or_app. left. exact Hin.
Qed.

Lemma strip_keeps (s : str) (c : ascii) :
  In c s -> is_space c = false -> In c (strip s).
Proof.
  destruct (strip_split s) as (ws1 & ws2 & Hs & Hws1 & Hws2).
  intros Hin Hc. rewrite Hs in Hin.
  rewrite forallb_forall in Hws1, Hws2.
  apply in_app_or in Hin. destruct Hin as [Hin|Hin].
  - apply Hws1 in Hin. congruence.
  - apply in_app_or in Hin. destruct Hin as [Hin|Hin]; [exact Hin|].
    apply Hws2 in Hin. congruence.
Qed.

Lemma split_lines_no_newline (s cur l : str) :
  ~ In "010"%char cur -> In l (split_lines s cur) -> ~ In "010"%char l.
Proof.
  revert cur. induction s as [|c s IH]; intros cur Hcur; simpl.
  - intros [<-|[]]. exact Hcur.
  - destruct (ascii_eqb c "010") eqn:Ec.
    + intros [<-|Hin]; [exact Hcur|]. eapply IH; [|exact Hin]. intros [].
    + apply IH. intros Hin. apply in_app_or in Hin.
      destruct Hin as [Hin|[Heq|[]]]; [exact (Hcur Hin)|].
      subst c. discriminate Ec.
Qed.

Lemma split_lines_cover (s cur : str) (c : ascii) :
  In c cur \/ In c s -> c <> "010"%char ->
  exists l, In l (split_lines s cur) /\ In c l.
Proof.
  intros Hin Hc. revert cur Hin.
  induction s as [|x s IH]; intros cur Hin; simpl.
  - destruct Hin as [Hin|[]]. exists cur. auto.
  - destruct (ascii_eqb x "010") eqn:Ex.
    + apply Ascii.eqb_eq in Ex. subst x.
      destruct Hin as [Hin|[Heq|Hin]].
      * exists cur. split; [left; reflexivity|exact Hin].
      * congruence.
      * destruct (IH [] (or_intror Hin)) as (l & Hl & Hcl). exists l.
        split; [right; exact Hl|exact Hcl].
    + apply IH. destruct Hin as [Hin|[<-|Hin]].
      * left. apply in_or_app. auto.
      * left. apply in_or_app. right. left. reflexivity.
      * right. exact Hin.
Qed.

Lemma lstrip_all_space (s : str) :
  forallb is_space s = true -> lstrip s = [].
Proof.
  induction s as [|c s IH]; simpl; [reflexivity|].
  intros H. apply andb_true_iff in H. destruct H as [-> Hs]. exact (IH Hs).
Qed.

Lemma forallb_false_witness {A} (f : A -> bool) (l : list A) :
  forallb f l = false -> exists x, In x l /\ f x = false.
Proof.
  induction l as [|x l IH]; simpl; [discriminate|].
  destruct (f x) eqn:Ex; simpl.
  - intros H. destruct (IH H) as (y & Hy & Hfy). exists y. auto.
  - intros _. exists x. auto.
Qed.

(** X10.  The patterns read from the patterns box are its lines without
    the whitespace around them, blank lines dropped: every pattern has at
    least one character, neither starts nor ends with whitespace, holds
    no line break, and stripping it again changes nothing.  There is no
    pattern at all exactly when the box holds nothing but whitespace. *)
Theorem parsed_patterns_are_trimmed_lines (text : str) :
  (forall p, In p (parse_patterns text) ->
             p <> [] /\ trimmed p /\ strip p = p /\ ~ In "010"%char p)
  /\ (parse_patterns text = [] <-> forallb is_space text = true).
Proof.
  split.
  - intros p Hp. unfold parse_patterns in Hp. apply in_map_iff in Hp.
    destruct Hp as (line & <- & Hline). apply filter_In in Hline.
    destruct Hline as [Hline Hne].
    split; [|split; [apply strip_trimmed|split]].
    + intros He. rewrite He in Hne. discriminate.
    + apply trimmed_strip, strip_trimmed.
    + intros Hin. apply strip_in in Hin.
      apply (@split_lines_no_newline (strip text) [] line); auto.
  - split.
    + intros Hnil. destruct (forallb is_space text) eqn:E; [reflexivity|].
      exfalso. apply forallb_false_witness in E. destruct E as (c & Hc & Hsp).
      assert (Hnl : c <> "010"%char) by (intros ->; discriminate).
      destruct (@split_lines_cover (strip text) [] c) as (line & Hline & Hcl);
        [right; apply strip_keeps; assumption|exact Hnl|].
      assert (Hin : In (strip line) (parse_patterns text)).
      { unfold parse_patterns. apply in_map. apply filter_In.
        split; [exact Hline|].
        pose proof (@strip_keeps line c Hcl Hsp) as Hk.
        destruct (strip line); [destruct Hk|reflexivity]. }
      rewrite Hnil in Hin. destruct Hin.
    + intros Hsp. unfold parse_patterns.
      assert (Hs : strip text = []).
      { unfold strip. rewrite (@lstrip_all_space text Hsp). reflexivity. }
      rewrite Hs. reflexivity.
Qed.

Lemma parsed_patterns_are_trimmed_lines_witness :
  parse_patterns (str_of "  BAD word  " ++ ["010"%char; "010"%char; "009"%char]
                  ++ str_of "x*" ++ ["013"%char; "010"%char])
  = [str_of "BAD word"; str_of "x*"]
  /\ trimmed (str_of "BAD word").
Proof.
  split; [vm_compute; reflexivity|].
  destruct (parsed_patterns_are_trimmed_lines
              (str_of "  BAD word  " ++ ["010"%char; "010"%char; "009"%char]
               ++ str_of "x*" ++ ["013"%char; "010"%char])) as [H _].
  apply (H (str_of "BAD word")). vm_compute. left. reflexivity.
Defined.

(** ** The batch *)

(** As long as no file raises, the loop patches file after file and adds
    up the counts. *)
Lemma patch_files_app_ok (set_iter : list bytes -> list bytes)
      (patterns : list str) (mode : string) (placeholder : str) (ci : bool)
      (before rest : list bytes) (tf tp : nat) :
  (forall f, In f before ->
             patch_count set_iter patterns mode placeholder ci f <> None) ->
  patch_files set_iter (before ++ rest) patterns mode placeholder ci tf tp
  = (map (patched set_iter patterns mode placeholder ci) before
       ++ fst (patch_files set_iter rest patterns mode placeholder ci
                 (tf + length (filter
                                 (fun f => 0 <? count_of set_iter patterns mode
                                                         placeholder ci f)
                                 before))
                 (tp + list_sum (map (count_of set_iter patterns mode
                                               placeholder ci) before))),
     snd (patch_files set_iter rest patterns mode placeholder ci
            (tf + length (filter
                            (fun f => 0 <? count_of set_iter patterns mode
                                                    placeholder ci f)
                            before))
            (tp + list_sum (map (count_of set_iter patterns mode
                                          placeholder ci) before)))).
Proof.
  revert tf tp. induction before as [|f before IH]; intros tf tp Hok.
  - simpl. rewrite !Nat.add_0_r. apply surjective_pairing.
  - assert (Hf := Hok f (or_introl eq_refl)).
    assert (Hrest : forall g, In g before ->
              patch_count set_iter patterns mode placeholder ci g <> None)
      by (intros g Hg; apply Hok; right; exact Hg).
    assert (Hp : patched set_iter patterns mode placeholder ci f
                 = fst (patch_file set_iter f patterns mode placeholder ci))
      by reflexivity.
    assert (Hc : count_of set_iter patterns mode placeholder ci f
                 = match snd (patch_file set_iter f patterns mode placeholder ci)
                   with
                   | Ok (n, _) => n
                   | Raise _ => 0
                   end).
    { unfold count_of, patch_count.
      destruct (snd (patch_file set_iter f patterns mode placeholder ci))
        as [[n l]|]; reflexivity. }
    cbn [app patch_files map filter list_sum fold_right].
    rewrite Hp, Hc. unfold patch_count in Hf. clear Hp Hc.
    destruct (patch_file set_iter f patterns mode placeholder ci)
      as [file' [[n log]|e]]; cbn [fst snd] in Hf |- *; [|congruence].
    destruct (0 <? n) eqn:En.
    + rewrite (IH (tf + 1) (tp + n) Hrest). cbn [length].
      replace (tf + 1 + length (filter
                 (fun f0 => 0 <? count_of set_iter patterns mode placeholder ci f0)
                 before))
        with (tf + S (length (filter
                 (fun f0 => 0 <? count_of set_iter patterns mode placeholder ci f0)
                 before))) by lia.
      rewrite <- Nat.add_assoc. reflexivity.
    + rewrite (IH tf tp Hrest). apply Nat.ltb_ge in En.
      assert (Hn : n = 0) by lia. rewrite Hn. reflexivity.
Qed.

Lemma patch_file_usable (set_iter : list bytes -> list bytes) (file : bytes)
      (patterns : list str) (mode : string) (placeholder : str) (ci : bool) :
  usable_mode mode placeholder -> file <> [] ->
  patch_count set_iter patterns mode placeholder ci file
  = Some (length (all_found set_iter file patterns ci))
  /\ length (patched set_iter patterns mode placeholder ci file) = length file.
Proof.
  intros Hmode Hfile. unfold patch_count, patched.
  rewrite patch_file_unfold. cbv zeta.
  destruct (is_empty (sort_desc (all_found set_iter file patterns ci))) eqn:Ee.
  - apply is_empty_true in Ee.
    pose proof (Permutation_length
                  (sort_desc_perm (all_found set_iter file patterns ci))) as Hl.
    rewrite Ee in Hl. simpl in Hl. rewrite <- Hl. auto.
  - rewrite (is_empty_false Hfile).
    destruct (@patch_loop_ok mode placeholder
                (sort_desc (all_found set_iter file patterns ci))
                (mk_patch file 0 []) Hmode)
      as (st' & Hloop & Hlen & Hcount & Hlog).
    { intros e He. cbn [mm]. eapply sorted_entries_fit. exact He. }
    rewrite Hloop. cbn [fst snd mm total_patches log_entries] in *.
    rewrite Hcount.
    rewrite (Permutation_length
               (sort_desc_perm (all_found set_iter file patterns ci))).
    split; [reflexivity|exact Hlen].
Qed.

Lemma default_placeholder_usable (mode : string) (placeholder_entry : str) :
  mode = "null"%string \/ mode = "placeholder"%string ->
  usable_mode mode (placeholder_or_default placeholder_entry).
Proof.
  intros [Hm|Hm]; subst mode; [left; reflexivity|right].
  split; [reflexivity|].
  unfold placeholder_or_default.
  destruct placeholder_entry; simpl; discriminate.
Qed.

(** X11.  With one of the two modes of the window and clip files none of
    which is empty, the batch never ends in the error branch, whatever the
    patterns and whatever the placeholder field holds, the empty field
    included since it stands for REMOVED.  Every file is patched and
    keeps its length; the first total is the number of files in which
    some pattern matched, the second the number of matches over all
    files. *)
Theorem batch_on_usable_input_ends_with_exact_totals
        (set_iter : list bytes -> list bytes) (files : list bytes)
        (patterns : list str) (mode : string) (placeholder_entry : str)
        (ci : bool)
        (Hmode : mode = "null"%string \/ mode = "placeholder"%string)
        (Hfiles : files <> [])
        (Hne : forall f, In f files -> f <> []) :
  let placeholder := placeholder_or_default placeholder_entry in
  let files' := map (patched set_iter patterns mode placeholder ci) files in
  run_patching set_iter files patterns mode placeholder_entry ci
  = (files',
     Done (length (filter
                     (fun f => negb (is_empty (all_found set_iter f patterns ci)))
                     files))
          (list_sum (map (fun f => length (all_found set_iter f patterns ci))
                         files)))
  /\ map (@length byte) files' = map (@length byte) files.
Proof.
  intros placeholder files'.
  pose proof (@default_placeholder_usable mode placeholder_entry Hmode) as Hu.
  fold placeholder in Hu.
  assert (Hcount : forall f, In f files ->
            count_of set_iter patterns mode placeholder ci f
            = length (all_found set_iter f patterns ci)).
  { intros f Hf. unfold count_of.
    destruct (@patch_file_usable set_iter f patterns mode placeholder ci Hu
                (Hne f Hf)) as [-> _]. reflexivity. }
  split.
  - unfold run_patching. rewrite (is_empty_false Hfiles).
    fold placeholder.
    rewrite <- (app_nil_r files) at 1.
    rewrite patch_files_app_ok.
    + cbn [patch_files fst snd]. rewrite app_nil_r. cbn [Nat.add].
      f_equal. f_equal.
      * f_equal. apply filter_ext_in. intros f Hf. rewrite (Hcount f Hf).
        destruct (all_found set_iter f patterns ci); reflexivity.
      * f_equal. apply map_ext_in. exact Hcount.
    + intros f Hf.
      destruct (@patch_file_usable set_iter f patterns mode placeholder ci Hu
                  (Hne f Hf)) as [-> _]. discriminate.
  - unfold files'. rewrite map_map. apply map_ext_in. intros f Hf.
    apply (@patch_file_usable set_iter f patterns mode placeholder ci Hu
             (Hne f Hf)).
Qed.

Lemma batch_on_usable_input_ends_with_exact_totals_witness :
  run_patching sample_order
               [bytes_of "abcabc"; bytes_of "xyz"; bytes_of "b"]
               [str_of "abc"; str_of "b*"; str_of "b"] "placeholder" [] false
  = ([bytes_of "REMREM"; bytes_of "xyz"; bytes_of "R"], Done 2 6).
Proof.
  destruct (@batch_on_usable_input_ends_with_exact_totals
              sample_order [bytes_of "abcabc"; bytes_of "xyz"; bytes_of "b"]
              [str_of "abc"; str_of "b*"; str_of "b"] "placeholder" [] false)
    as [H _].
  - right. reflexivity.
  - discriminate.
  - intros f [<-|[<-|[<-|[]]]]; discriminate.
  - exact H.
Defined.

(** X12.  The first file on which [patch_file] raises ends the batch:
    the exception is what the batch reports, no total is given, the files
    before it stay patched, the failing file keeps the writes made before
    the exception, and the files after it are neither searched nor
    changed. *)
Theorem batch_stops_at_the_first_failing_file
        (set_iter : list bytes -> list bytes)
        (before after : list bytes) (bad bad' : bytes) (e : pyerror)
        (patterns : list str) (mode : string) (placeholder_entry : str)
        (ci : bool)
        (Hbefore : forall f, In f before ->
                     patch_count set_iter patterns mode
                       (placeholder_or_default placeholder_entry) ci f <> None)
        (Hbad : patch_file set_iter bad patterns mode
                  (placeholder_or_default placeholder_entry) ci
                = (bad', Raise e)) :
  run_patching set_iter (before ++ bad :: after) patterns mode
               placeholder_entry ci
  = (map (patched set_iter patterns mode
                  (placeholder_or_default placeholder_entry) ci) before
       ++ bad' :: after,
     Failed e).
Proof.
  unfold run_patching.
  assert (Hne : before ++ bad :: after <> []) by (destruct before; discriminate).
  rewrite (is_empty_false Hne).
  rewrite (@patch_files_app_ok set_iter patterns mode
             (placeholder_or_default placeholder_entry) ci before
             (bad :: after) 0 0 Hbefore).
  cbn [patch_files]. rewrite Hbad. reflexivity.
Qed.

Lemma batch_stops_at_the_first_failing_file_witness :
  run_patching sample_order
               ([bytes_of "xyz"] ++ bytes_of "xaxa" :: [bytes_of "aaaa"])
               [str_of "a"] "blank" [] false
  = ([bytes_of "xyz"] ++ bytes_of "xaxa" :: [bytes_of "aaaa"],
     Failed (ValueError_unknown_mode "blank")).
Proof.
  apply (@batch_stops_at_the_first_failing_file
           sample_order [bytes_of "xyz"] [bytes_of "aaaa"]
           (bytes_of "xaxa") (bytes_of "xaxa") (ValueError_unknown_mode "blank")
           [str_of "a"] "blank" [] false).
  - intros f [<-|[]]. vm_compute. discriminate.
  - vm_compute. reflexivity.
Defined.

(** ** The two literal searches compared *)

Lemma nodup_thrice (b : bytes) : nodup bytes_eq_dec [b; b; b] = [b].
Proof.
  cbn [nodup]. destruct (in_dec bytes_eq_dec b [b; b]) as [_|Hn].
  - destruct (in_dec bytes_eq_dec b [b]) as [_|Hn].
    + destruct (in_dec bytes_eq_dec b []) as [[]|_]. reflexivity.
    + exfalso. apply Hn. left. reflexivity.
  - exfalso. apply Hn. left. reflexivity.
Qed.

Lemma app_same_length {A} (a b c d : list A) :
  a ++ b = c ++ d -> length a = length c -> a = c /\ b = d.
Proof.
  revert c. induction a as [|x a IH]; intros [|y c]; simpl;
    try discriminate; intros H Hl; [auto|].
  injection H as -> H. injection Hl as Hl.
  destruct (IH c H Hl) as [-> ->]. auto.
Qed.

Lemma occurs_at_same_length (data a b : bytes) (i : nat) :
  occurs_at data a i -> occurs_at data b i -> length a = length b -> a = b.
Proof.
  intros (pre & post & Hd & Hl) (pre' & post' & Hd' & Hl') Hab.
  rewrite Hd in Hd'.
  destruct (app_same_length _ _ _ _ Hd') as [_ H]; [congruence|].
  destruct (app_same_length _ _ _ _ H) as [H' _]; [exact Hab|exact H'].
Qed.

Lemma lower_char_ascii (c : ascii) :
  is_ascii c = true -> is_ascii (lower_char c) = true.
Proof.
  destruct c as [b0 b1 b2 b3 b4 b5 b6 b7].
  destruct b0, b1, b2, b3, b4, b5, b6, b7; intros H;
    try discriminate H; reflexivity.
Qed.

Lemma upper_chars_ascii (c : ascii) :
  is_ascii c = true ->
  exists c', upper_chars c = [c'] /\ is_ascii c' = true.
Proof.
  destruct c as [b0 b1 b2 b3 b4 b5 b6 b7].
  destruct b0, b1, b2, b3, b4, b5, b6, b7; intros H;
    try discriminate H; eexists; split; reflexivity.
Qed.

Lemma encode_ignore_ascii_length (s : str) :
  forallb is_ascii s = true -> length (encode_ignore s) = length s.
Proof.
  intros H. unfold encode_ignore. rewrite length_map.
  rewrite (@filter_all_true _ is_ascii s H). reflexivity.
Qed.

Lemma str_lower_ascii (s : str) :
  forallb is_ascii s = true ->
  forallb is_ascii (str_lower s) = true /\ length (str_lower s) = length s.
Proof.
  intros H. unfold str_lower. rewrite length_map. split; [|reflexivity].
  rewrite forallb_forall in *. intros c Hc. apply in_map_iff in Hc.
  destruct Hc as (x & <- & Hx). apply lower_char_ascii, H, Hx.
Qed.

Lemma str_upper_ascii (s : str) :
  forallb is_ascii s = true ->
  forallb is_ascii (str_upper s) = true /\ length (str_upper s) = length s.
Proof.
  unfold str_upper. induction s as [|c s IH]; simpl; [auto|].
  intros H. apply andb_true_iff in H. destruct H as [Hc Hs].
  destruct (upper_chars_ascii c Hc) as (c' & -> & Hc').
  destruct (IH Hs) as [Ha Hl]. simpl. rewrite Hc', Ha, Hl. auto.
Qed.

Lemma case_variants_ascii_length (pattern : str) (c : bytes) :
  forallb is_ascii pattern = true ->
  In c (case_variants pattern) -> length c = length pattern.
Proof.
  intros H. destruct (str_lower_ascii pattern H) as [Hla Hll].
  destruct (str_upper_ascii pattern H) as [Hua Hul].
  intros [<-|[<-|[<-|[]]]].
  - apply encode_ignore_ascii_length. exact H.
  - rewrite encode_ignore_ascii_length; assumption.
  - rewrite encode_ignore_ascii_length; assumption.
Qed.

(** X13.  Switching the case-insensitive search on loses no literal
    match: at every offset where the case-sensitive search reports the
    bytes of the pattern, the case-insensitive search reports them too,
    with their decoded text in place of the pattern.  For a pattern that
    its lower and upper forms leave unchanged, the case-insensitive search
    returns the same offsets in the same order as the case-sensitive
    one. *)
Theorem case_insensitive_search_keeps_the_exact_matches
        (set_iter : list bytes -> list bytes) (data : bytes) (pattern : str)
        (Hset : set_order set_iter) :
  let as_reported (h : hit) : hit :=
    (hit_offset h, decode_ignore (hit_bytes h), hit_bytes h) in
  (forall h, In h (find_exact_matches set_iter data pattern false) ->
             In (as_reported h) (find_exact_matches set_iter data pattern true))
  /\ (str_lower pattern = pattern -> str_upper pattern = pattern ->
      find_exact_matches set_iter data pattern true
      = map as_reported (find_exact_matches set_iter data pattern false)).
Proof.
  intros as_reported. split.
  - intros h Hh. unfold find_exact_matches in Hh. apply in_map_iff in Hh.
    destruct Hh as (i & <- & Hi). apply find_all_in in Hi.
    apply (find_exact_matches_ci_in Hset).
    unfold as_reported, hit_offset, hit_text, hit_bytes. cbn [fst snd].
    split; [left; reflexivity|]. split; [exact Hi|reflexivity].
  - intros Hlow Hup. rewrite find_exact_matches_ci.
    unfold case_variants. rewrite Hlow, Hup.
    pose proof (Hset [encode_ignore pattern; encode_ignore pattern;
                      encode_ignore pattern]) as Hp.
    rewrite nodup_thrice in Hp.
    apply Permutation_sym, Permutation_length_1_inv in Hp. rewrite Hp.
    cbn [flat_map]. rewrite app_nil_r.
    unfold candidate_hits, find_exact_matches. rewrite map_map.
    reflexivity.
Qed.

Lemma case_insensitive_search_keeps_the_exact_matches_witness :
  In (2, str_of "10", bytes_of "10")
     (find_exact_matches sample_order (bytes_of "0010100") (str_of "10") true)
  /\ find_exact_matches sample_order (bytes_of "0010100") (str_of "10") true
     = [(2, str_of "10", bytes_of "10"); (4, str_of "10", bytes_of "10")].
Proof.
  destruct (@case_insensitive_search_keeps_the_exact_matches
              sample_order (bytes_of "0010100") (str_of "10") sample_order_ok)
    as [H1 H2].
  split.
  - apply (H1 (2, str_of "10", bytes_of "10")). vm_compute. left. reflexivity.
  - rewrite H2; reflexivity.
Defined.

(** X14.  For a pattern of ASCII characters only, the case-insensitive
    literal search reports every offset at most once, and every match is
    as long as the pattern: the three variants have the length of the
    pattern, so two of them cannot occur at one offset. *)
Theorem ascii_pattern_is_found_once_per_offset
        (set_iter : list bytes -> list bytes) (data : bytes) (pattern : str)
        (Hset : set_order set_iter)
        (Hascii : forallb is_ascii pattern = true) :
  let found := find_exact_matches set_iter data pattern true in
  NoDup (map hit_offset found)
  /\ (forall h, In h found -> length (hit_bytes h) = length pattern).
Proof.
  intros found.
  assert (Hlen : forall h, In h found -> length (hit_bytes h) = length pattern).
  { intros h Hh. apply (find_exact_matches_ci_in Hset) in Hh.
    destruct Hh as (Hc & _). eapply case_variants_ascii_length; eassumption. }
  split; [|exact Hlen].
  apply NoDup_map_NoDup_ForallPairs.
  - intros h1 h2 H1 H2 Heq.
    pose proof (Hlen h1 H1) as L1. pose proof (Hlen h2 H2) as L2.
    apply (find_exact_matches_ci_in Hset) in H1, H2.
    destruct H1 as (_ & O1 & T1), H2 as (_ & O2 & T2).
    rewrite Heq in O1.
    assert (Hb : hit_bytes h1 = hit_bytes h2)
      by (eapply occurs_at_same_length; [exact O1|exact O2|congruence]).
    destruct h1 as [[i1 t1] b1], h2 as [[i2 t2] b2].
    unfold hit_offset, hit_text, hit_bytes in *. cbn [fst snd] in *.
    congruence.
  - apply find_exact_matches_ci_nodup. exact Hset.
Qed.

Lemma ascii_pattern_is_found_once_per_offset_witness :
  NoDup (map hit_offset
             (find_exact_matches sample_order (bytes_of "ab AB Ab aB")
                                 (str_of "Ab") true))
  /\ (forall h,
        In h (find_exact_matches sample_order (bytes_of "ab AB Ab aB")
                                 (str_of "Ab") true) ->
        length (hit_bytes h) = 2).
Proof.
  apply (@ascii_pattern_is_found_once_per_offset
           sample_order (bytes_of "ab AB Ab aB") (str_of "Ab")
           sample_order_ok).
  reflexivity.
Defined.

(** ** A placeholder without ASCII characters *)

Lemma make_repl_non_ascii (placeholder : str) (matched_bytes : bytes) :
  placeholder <> [] ->
  forallb (fun c => negb (is_ascii c)) placeholder = true ->
  make_repl "placeholder" placeholder matched_bytes
  = Ok (repeat x00 (length matched_bytes)).
Proof.
  intros Hne Hall. unfold make_repl. cbn [String.eqb Ascii.eqb Bool.eqb].
  cbv beta iota zeta.
  destruct (length placeholder =? 0) eqn:E.
  { apply Nat.eqb_eq in E. destruct placeholder; [congruence|discriminate]. }
  set (n := length matched_bytes).
  set (ph := firstn n (str_repeat placeholder (n / length placeholder + 1))).
  assert (Hph : encode_ignore ph = []).
  { unfold encode_ignore. rewrite filter_all_false; [reflexivity|].
    intros c Hc.
    assert (H : forallb (fun c => negb (is_ascii c)) ph = true)
      by (apply forallb_firstn, forallb_str_repeat; exact Hall).
    rewrite forallb_forall in H. apply H in Hc.
    destruct (is_ascii c); [discriminate|reflexivity]. }
  rewrite Hph. cbn [length app]. rewrite Nat.sub_0_r.
  destruct n as [|n']; [reflexivity|].
  replace (0 <? S n') with true by reflexivity.
  f_equal. apply firstn_all2. rewrite repeat_length. lia.
Qed.

Lemma patch_loop_ext (mode1 mode2 : string) (placeholder1 placeholder2 : str)
      (entries : list entry) (st : patch_state) :
  (forall e, In e entries ->
             make_repl mode1 placeholder1 (entry_bytes e)
             = make_repl mode2 placeholder2 (entry_bytes e)) ->
  patch_loop mode1 placeholder1 entries st
  = patch_loop mode2 placeholder2 entries st.
Proof.
  revert st.
  induction entries as [|[[[start_idx matched_str] matched_bytes] pat] rest IH];
    intros st H; [reflexivity|].
  cbn [patch_loop].
  pose proof (H _ (or_introl eq_refl)) as Hhead.
  change (entry_bytes (start_idx, matched_str, matched_bytes, pat))
    with matched_bytes in Hhead.
  rewrite Hhead.
  destruct (make_repl mode2 placeholder2 matched_bytes) as [repl|e];
    [|reflexivity].
  destruct (mmap_setslice (mm st) start_idx (start_idx + length matched_bytes)
                          repl) as [mm'|e]; [|reflexivity].
  apply IH. intros e He. apply H. right. exact He.
Qed.

(** X15.  A placeholder none of whose characters is ASCII makes
    placeholder mode do what null mode does: its characters are dropped
    by the encoding and the padding fills every match with zero bytes, so
    [patch_file] leaves the same file and returns the same count and
    log. *)
Theorem placeholder_without_ascii_acts_as_null_mode
        (set_iter : list bytes -> list bytes) (file : bytes)
        (patterns : list str) (placeholder : str) (ci : bool)
        (Hne : placeholder <> [])
        (Hall : forallb (fun c => negb (is_ascii c)) placeholder = true) :
  patch_file set_iter file patterns "placeholder" placeholder ci
  = patch_file set_iter file patterns "null" placeholder ci.
Proof.
  rewrite !patch_file_unfold. cbv zeta.
  destruct (is_empty (sort_desc (all_found set_iter file patterns ci)));
    [reflexivity|].
  destruct (is_empty file); [reflexivity|].
  rewrite (@patch_loop_ext "placeholder" "null" placeholder placeholder);
    [reflexivity|].
  intros e _. rewrite (make_repl_non_ascii _ Hne Hall).
  rewrite make_repl_null. reflexivity.
Qed.

Lemma placeholder_without_ascii_acts_as_null_mode_witness :
  patch_file sample_order (bytes_of "say BAD word") [str_of "BAD"]
             "placeholder" ["233"%char; "255"%char] false
  = patch_file sample_order (bytes_of "say BAD word") [str_of "BAD"]
               "null" ["233"%char; "255"%char] false.
Proof.
  apply (@placeholder_without_ascii_acts_as_null_mode
           sample_order (bytes_of "say BAD word") [str_of "BAD"]
           ["233"%char; "255"%char] false).
  - discriminate.
  - reflexivity.
Defined.

(** ** The runs and the printable bytes *)

Lemma runs_from_cover (data : bytes) (pos : nat) :
  forall i b, nth_error data i = Some b ->
              (printable b = true
               <-> exists run, In run (runs_from pos [] data)
                               /\ run_covers run (pos + i)).
Proof.
  apply (runs_block_ind
           (fun pos data runs =>
              forall i b, nth_error data i = Some b ->
                          (printable b = true
                           <-> exists run, In run runs
                                           /\ run_covers run (pos + i)))).
  - intros pos' i b Hi. destruct i; discriminate.
  - intros pos' b0 rest Hb0 IH i b Hi. destruct i as [|i].
    + injection Hi as <-. rewrite Hb0. split; [discriminate|].
      intros ([o t] & Hin & Hc). exfalso.
      apply runs_from_bounds in Hin; [|simpl; lia].
      unfold run_covers in Hc. simpl in Hin, Hc. lia.
    + simpl in Hi. rewrite (IH i b Hi).
      replace (pos' + 1 + i) with (pos' + S i) by lia. reflexivity.
  - intros pos' r post Hne Hr Hpost IH i b Hi.
    destruct (Nat.lt_ge_cases i (length r)) as [Hlt|Hge].
    + rewrite nth_error_app1 in Hi by exact Hlt.
      rewrite forallb_forall in Hr.
      rewrite (Hr b (nth_error_In _ _ Hi)). split; [|reflexivity].
      intros _. exists (pos', map chr r). split; [left; reflexivity|].
      unfold run_covers. simpl. rewrite length_map. lia.
    + rewrite nth_error_app2 in Hi by exact Hge.
      destruct Hpost as [->|(b0 & post' & -> & Hb0)];
        [destruct (i - length r); discriminate|].
      cbn [tl] in IH.
      destruct (i - length r) as [|k] eqn:Ek.
      * injection Hi as <-. rewrite Hb0. split; [discriminate|].
        intros ([o t] & [Heq|Hin] & Hc); exfalso.
        -- injection Heq as <- <-. unfold run_covers in Hc. simpl in Hc.
           rewrite length_map in Hc. lia.
        -- apply runs_from_bounds in Hin; [|simpl; lia].
           unfold run_covers in Hc. simpl in Hin, Hc. lia.
      * simpl in Hi. rewrite (IH k b Hi).
        replace (pos' + length r + 1 + k) with (pos' + i) by lia.
        split.
        -- intros (run & Hin & Hc). exists run. split; [right; exact Hin|exact Hc].
        -- intros (run & [Heq|Hin] & Hc).
           ++ exfalso. subst run. unfold run_covers in Hc. simpl in Hc.
              rewrite length_map in Hc. lia.
           ++ exists run. auto.
Qed.

(** X16.  The runs hold the printable bytes of the buffer and nothing
    else: a byte is printable if and only if its offset lies inside one
    of the extracted runs, and the text of that run has the character of
    the byte at the same place. *)
Theorem runs_cover_exactly_the_printable_bytes
        (data : bytes) (i : nat) (b : byte)
        (Hb : nth_error data i = Some b) :
  (printable b = true
   <-> exists run, In run (extract_runs data) /\ run_covers run i)
  /\ (forall run, In run (extract_runs data) -> run_covers run i ->
                  nth_error (snd run) (i - fst run) = Some (chr b)).
Proof.
  split.
  - rewrite extract_runs_runs_from. apply (@runs_from_cover data 0 i b Hb).
  - intros [o t] Hin Hc. rewrite extract_runs_runs_from in Hin.
    apply (@runs_from_sound data 0 [] eq_refl (or_introl eq_refl)) in Hin.
    destruct Hin as (r & -> & Hrun). apply is_run_occurs in Hrun.
    change ([] ++ data) with data in Hrun.
    apply occurs_at_nth in Hrun. destruct Hrun as [_ Hnth].
    unfold run_covers in Hc. cbn [fst snd] in *. rewrite length_map in Hc.
    rewrite nth_error_map, <- (Hnth (i - o)) by lia.
    replace (o + (i - o)) with i by lia. rewrite Hb. reflexivity.
Qed.

Lemma runs_cover_exactly_the_printable_bytes_witness :
  printable (byte_of_ascii "c") = true
  <-> exists run,
      In run (extract_runs (bytes_of "a" ++ [x00; x01] ++ bytes_of "bc"))
      /\ run_covers run 4.
Proof.
  apply (@runs_cover_exactly_the_printable_bytes
           (bytes_of "a" ++ [x00; x01] ++ bytes_of "bc") 4 (byte_of_ascii "c")).
  reflexivity.
Defined.

(** ** Wildcard matches of one pattern *)

Lemma StronglySorted_filter {A} (R : A -> A -> Prop) (f : A -> bool)
      (l : list A) :
  StronglySorted R l -> StronglySorted R (filter f l).
Proof.
  induction 1 as [|x l Hs IH Hall]; simpl; [constructor|].
  destruct (f x); [|exact IH]. constructor; [exact IH|].
  rewrite Forall_forall in *. intros y Hy. apply filter_In in Hy.
  apply Hall, Hy.
Qed.

Lemma StronglySorted_map {A B} (R : A -> A -> Prop) (S : B -> B -> Prop)
      (g : A -> B) (l : list A) :
  (forall x y, R x y -> S (g x) (g y)) ->
  StronglySorted R l -> StronglySorted S (map g l).
Proof.
  intros Hg. induction 1 as [|x l Hs IH Hall]; simpl; constructor;
    [exact IH|].
  rewrite Forall_forall in *. intros y Hy. apply in_map_iff in Hy.
  destruct Hy as (z & <- & Hz). apply Hg, Hall, Hz.
Qed.

(** X17.  The matches of one wildcard pattern come in increasing order
    of offset and never touch: each ends at least one byte before the
    next one starts, so no byte is patched twice for one wildcard
    pattern and no offset is reported twice. *)
Theorem wildcard_matches_are_ordered_and_apart
        (data : bytes) (pattern : str) (ci : bool) :
  exists hits,
    find_wildcard_matches data pattern ci = Ok hits
    /\ StronglySorted hit_before hits
    /\ NoDup (map hit_offset hits).
Proof.
  rewrite find_wildcard_matches_spec. eexists. split; [reflexivity|].
  assert (Hs : StronglySorted hit_before
                 (map hit_of_run
                      (filter (fun run => satisfies pattern ci (snd run))
                              (extract_runs data)))).
  { apply (@StronglySorted_map _ _ run_before).
    - intros [o1 t1] [o2 t2]. unfold run_before, hit_before, hit_of_run,
        hit_offset, hit_bytes. cbn [fst snd]. rewrite length_map. auto.
    - apply StronglySorted_filter. rewrite extract_runs_runs_from.
      apply runs_from_sorted. }
  split; [exact Hs|].
  induction Hs as [|h hits Hs IH Hall]; simpl; constructor; [|exact IH].
  intros Hin. apply in_map_iff in Hin. destruct Hin as (h' & Heq & Hh').
  rewrite Forall_forall in Hall. apply Hall in Hh'.
  unfold hit_before in Hh'. lia.
Qed.

(** ** A pattern of stars *)

Lemma add_star_twice (res : list piece) (tail : list piece) :
  rev res = PStar :: tail -> add_star res = res.
Proof. unfold add_star. intros ->. reflexivity. Qed.

Lemma translate_loop_stars (pat : str) (res tail : list piece) :
  forallb (fun c => ascii_eqb c "*") pat = true ->
  rev res = PStar :: tail ->
  translate_loop pat res = res.
Proof.
  induction pat as [|c rest IH]; intros Hall Hres; simp translate_loop;
    [reflexivity|].
  simpl in Hall. apply andb_true_iff in Hall. destruct Hall as [Hc Hrest].
  rewrite Hc. rewrite (add_star_twice _ Hres). apply IH; assumption.
Qed.

Lemma translate_stars (pattern : str) :
  pattern <> [] ->
  forallb (fun c => ascii_eqb c "*") pattern = true ->
  translate pattern = [PStar].
Proof.
  destruct pattern as [|c rest]; [congruence|]. intros _ Hall.
  simpl in Hall. apply andb_true_iff in Hall. destruct Hall as [Hc Hrest].
  unfold translate. simp translate_loop. rewrite Hc.
  apply (@translate_loop_stars rest [PStar] []); [exact Hrest|reflexivity].
Qed.

Lemma star_matches_all (ci : bool) (s : str) : rx_match ci [RStar] s = true.
Proof.
  induction s as [|c s IH]; [reflexivity|].
  cbn [rx_match] in *. cbn [is_empty orb]. exact IH.
Qed.

Lemma satisfies_stars (pattern : str) (ci : bool) (text : str) :
  pattern <> [] ->
  forallb (fun c => ascii_eqb c "*") pattern = true ->
  satisfies pattern ci text = true.
Proof.
  intros Hne Hall. unfold satisfies. rewrite (translate_stars Hne Hall).
  cbn [re_compile]. apply star_matches_all.
Qed.

Lemma is_wildcard_stars (pattern : str) :
  pattern <> [] ->
  forallb (fun c => ascii_eqb c "*") pattern = true ->
  is_wildcard pattern = true.
Proof.
  destruct pattern as [|c rest]; [congruence|]. intros _ Hall.
  simpl in Hall. apply andb_true_iff in Hall. destruct Hall as [Hc _].
  unfold is_wildcard. simpl. rewrite Hc. reflexivity.
Qed.

Lemma mask_map (f : nat -> bool) (g : byte -> byte) (pos : nat) (data : bytes) :
  (forall k b, nth_error data k = Some b ->
               (if f (pos + k) then x00 else b) = g b) ->
  mask f pos data = map g data.
Proof.
  revert pos. induction data as [|b rest IH]; intros pos H; simpl;
    [reflexivity|].
  f_equal.
  - rewrite <- (H 0 b eq_refl), Nat.add_0_r. reflexivity.
  - apply IH. intros k b' Hk. rewrite <- (H (S k) b' Hk).
    replace (pos + S k) with (S pos + k) by lia. reflexivity.
Qed.

Lemma coveredb_runs (pattern : str) (runs : list (nat * str)) (i : nat) :
  coveredb (map (with_pattern pattern) (map hit_of_run runs)) i = true
  <-> exists run, In run runs /\ run_covers run i.
Proof.
  unfold coveredb. rewrite existsb_exists. split.
  - intros (e & He & Hs). apply in_map_iff in He.
    destruct He as (h & <- & Hh). apply in_map_iff in Hh.
    destruct Hh as ([o t] & <- & Hrun). exists (o, t). split; [exact Hrun|].
    apply in_slice_spec in Hs.
    unfold with_pattern, hit_of_run, entry_offset, entry_bytes, hit_offset,
      hit_bytes, run_covers in *. cbn [fst snd] in *.
    rewrite length_map in Hs. exact Hs.
  - intros ([o t] & Hrun & Hc).
    exists (with_pattern pattern (hit_of_run (o, t))). split.
    + apply in_map, in_map, Hrun.
    + apply in_slice_spec.
      unfold with_pattern, hit_of_run, entry_offset, entry_bytes, hit_offset,
        hit_bytes, run_covers in *. cbn [fst snd] in *.
      rewrite length_map. exact Hc.
Qed.

(** X18.  A pattern made of stars only matches every run, so in null
    mode [patch_file] with this pattern replaces every printable byte of
    the file with a zero byte and leaves the other bytes; the count it
    returns is the number of runs. *)
Theorem pattern_of_stars_blanks_every_printable_byte
        (set_iter : list bytes -> list bytes) (file : bytes)
        (pattern placeholder : str) (ci : bool)
        (Hne : pattern <> [])
        (Hstars : forallb (fun c => ascii_eqb c "*") pattern = true) :
  exists log,
    patch_file set_iter file [pattern] "null" placeholder ci
    = (map blank_printable file, Ok (length (extract_runs file), log)).
Proof.
  assert (Hhits : pattern_matches set_iter file pattern ci
                  = Ok (map hit_of_run (extract_runs file))).
  { unfold pattern_matches. rewrite (is_wildcard_stars Hne Hstars).
    rewrite find_wildcard_matches_spec. do 2 f_equal.
    apply filter_all_true. apply forallb_forall. intros run _.
    apply satisfies_stars; assumption. }
  destruct (@patch_file_null set_iter file pattern ci placeholder
              (map hit_of_run (extract_runs file)) Hhits)
    as (log & Hpatch).
  - intros h Hh.
    pose proof (pattern_matches_found set_iter file pattern ci) as Hf.
    rewrite Hhits in Hf. injection Hf as Hf. rewrite Hf in Hh.
    eapply found_hits_fit. exact Hh.
  - intros Hn ->. apply Hn. reflexivity.
  - exists log. rewrite Hpatch, length_map. f_equal.
    apply mask_map. intros k b Hk. cbn [Nat.add]. unfold blank_printable.
    destruct (@runs_from_cover file 0 k b Hk) as [H1 H2].
    rewrite <- extract_runs_runs_from in H1, H2. cbn [Nat.add] in H1, H2.
    destruct (printable b) eqn:Eb.
    + rewrite (proj2 (coveredb_runs pattern (extract_runs file) k) (H1 eq_refl)).
      reflexivity.
    + destruct (coveredb (map (with_pattern pattern)
                              (map hit_of_run (extract_runs file))) k) eqn:Ec;
        [|reflexivity].
      apply coveredb_runs in Ec. apply H2 in Ec. discriminate.
Qed.

Lemma pattern_of_stars_blanks_every_printable_byte_witness :
  exists log,
    patch_file sample_order (bytes_of "ab" ++ [x01; xff] ++ bytes_of "c")
               [str_of "**"] "null" [] true
    = (map blank_printable (bytes_of "ab" ++ [x01; xff] ++ bytes_of "c"),
       Ok (length (extract_runs (bytes_of "ab" ++ [x01; xff] ++ bytes_of "c")),
           log)).
Proof.
  apply (@pattern_of_stars_blanks_every_printable_byte
           sample_order (bytes_of "ab" ++ [x01; xff] ++ bytes_of "c")
           (str_of "**") [] true).
  - discriminate.
  - reflexivity.
Defined.
